(** * A fixed-size worker-thread pool (thread_pool_example.cpp)

    The class [ThreadPool] is embedded as a labelled transition system.
    A state holds the members of the class ([workers], [tasks], [stop]),
    the packaged tasks that [enqueue] allocates, what the workers wrote
    to [std::cerr], and the position of the thread that runs the
    destructor.  Everything done between taking and releasing
    [queue_mutex] is one transition: the mutex is what makes it atomic.
    A label records which thread moved and what it observed, so that
    properties of executions are properties of lists of labels.

    The threads interleave in any order.  A worker asleep in
    [condition.wait] may wake at any time, as the standard allows, so
    the two [notify] calls need no bookkeeping of their own.  The
    callable of a task is a function: it comes to an end, with a value
    or with an exception, without waiting for anything; a callable that
    never returns, or that waits for a future of the same pool, is
    outside this development, and every statement about progress below
    is about tasks that come to an end.  [std::packaged_task] and
    [std::future] behave as the C++ standard says.

    The states are those of the pool object during its lifetime, up to
    the return of the destructor's body; what the destruction of the
    members does after that is the function [destroy_members]. *)

From stdpp Require Import base option list sets strings.

Set Default Proof Using "Type".

(** ** Data *)

(** Errors of [std::future] and [std::packaged_task]. *)
Inductive future_errc :=
| broken_promise
| future_already_retrieved
| promise_already_satisfied
| no_state.

(** Objects that can be thrown. *)
Inductive exception :=
| runtime_error (what : string)
| future_error (code : future_errc)
| other_exception (what : string).

(** A call either returns or throws. *)
Inductive result (A : Type) :=
| Returned (a : A)
| Threw (e : exception).
Arguments Returned {A} a.
Arguments Threw {A} e.

(** [std::future<return_type>]: the shared state it refers to, if any.
    [valid()] holds exactly when there is one. *)
Record future := Future { fstate : option nat }.

Definition valid (fut : future) : bool := bool_decide (is_Some (fstate fut)).

(** Where a worker thread stands in its loop (lines 17-33). *)
Inductive wpc :=
| Ready                (* at line 20, about to take the lock *)
| Waiting              (* inside [condition.wait], lock released *)
| Claimed (t : nat)    (* past line 25 with [task] moved out of the queue *)
| Running (t : nat)    (* inside [task()] at line 27 *)
| Exited.              (* returned at line 22 *)

(** [std::thread]: the thread of execution and whether it can still be
    joined. *)
Record thread := Thread { pc : wpc; joinable : bool }.

(** Where the thread running [~ThreadPool] stands (lines 55-66). *)
Inductive dpc :=
| DNone                (* the destructor has not been entered *)
| DNotify              (* past line 59, before [notify_all] *)
| DJoin (i : nat)      (* in the loop of line 61, at [workers[i]] *)
| DDone.               (* line 66 is reached: the body is over, the members
                          are destroyed next *)

Section Pool.

(** The template parameter [return_type]. *)
Context {T : Type}.

(** What calling the bound callable [std::bind(f, args...)] does: it
    returns a value or throws.  Callables that do neither are not
    represented. *)
Definition callable : Type := unit → result T.

(** [std::packaged_task<return_type()>] together with its shared state:
    the stored callable and the result slot, empty until the task has
    been invoked. *)
Record packaged_task := PackagedTask {
  fn : callable;
  shared : option (result T)
}.

Record state := State {
  workers : list thread;          (* line 73 *)
  tasks : list nat;               (* line 74: each element is the closure
                                     of line 49, named by the packaged
                                     task it captures and calls *)
  stop : bool;                    (* line 77 *)
  heap : list packaged_task;      (* the objects made at line 41 *)
  cerr : list exception;          (* what lines 29 and 31 reported *)
  dtor : dpc
}.

Definition set_workers (ws : list thread) (s : state) : state :=
  State ws (tasks s) (stop s) (heap s) (cerr s) (dtor s).
Definition set_tasks (q : list nat) (s : state) : state :=
  State (workers s) q (stop s) (heap s) (cerr s) (dtor s).
Definition set_stop (b : bool) (s : state) : state :=
  State (workers s) (tasks s) b (heap s) (cerr s) (dtor s).
Definition set_heap (h : list packaged_task) (s : state) : state :=
  State (workers s) (tasks s) (stop s) h (cerr s) (dtor s).
Definition set_cerr (c : list exception) (s : state) : state :=
  State (workers s) (tasks s) (stop s) (heap s) c (dtor s).
Definition set_dtor (d : dpc) (s : state) : state :=
  State (workers s) (tasks s) (stop s) (heap s) (cerr s) d.

Definition set_pc (w : nat) (p : wpc) (s : state) : state :=
  set_workers (alter (λ th, Thread p (joinable th)) w (workers s)) s.

(** ** The constructor (lines 14-35)

    [stop] is initialised to [false] and the loop starts [threads]
    threads, each at the head of the worker loop. *)
Definition ThreadPool (threads : nat) : state :=
  {| workers := replicate threads (Thread Ready true);
     tasks := [];
     stop := false;
     heap := [];
     cerr := [];
     dtor := DNone |}.

(** Line 83 of [main]: the argument [main] passes for a hint [n]. *)
Definition main_threads (n : nat) : nat := if bool_decide (0 < n) then n else 4.

(** ** [enqueue] (lines 38-53)

    Line 41 makes the packaged task, line 45 takes its future.  Under
    the lock, line 48 throws when [stop] is set, and unwinding destroys
    the two locals [task] and [res], the only owners of the new object;
    otherwise line 49 puts the closure at the back of the queue and
    line 52 returns the future.  The [notify_one] of line 51 comes
    after the lock is released; it is the transition [LWake] below. *)
Definition release (task : nat) (s : state) : state :=
  set_heap (take task (heap s)) s.

Definition enqueue (f : callable) (s : state) : result future * state :=
  let task := length (heap s) in
  let s1 := set_heap (heap s ++ [PackagedTask f None]) s in
  let res := Future (Some task) in
  if stop s1
  then (Threw (runtime_error "enqueue on stopped ThreadPool"), release task s1)
  else (Returned res, set_tasks (tasks s1 ++ [task]) s1).

(** ** The worker loop (lines 17-33) *)

(** Lines 20-25, lock held.  The wait predicate is [stop || !tasks.empty()];
    when it is false the thread sleeps in [wait]; when [stop] holds and the
    queue is empty the thread returns; otherwise it takes the front. *)
Definition critical (s : state) : wpc * list nat :=
  match tasks s, stop s with
  | [], false => (Waiting, [])
  | [], true => (Exited, [])
  | t :: q, _ => (Claimed t, q)
  end.

(** Calling the closure of line 49: the packaged task calls its callable once and stores
    what it returned or threw in the shared state; invoked again, or
    without a state, it throws [future_error]. *)
Definition invoke (t : nat) (s : state) : result unit * state :=
  match heap s !! t with
  | Some (PackagedTask f None) =>
      (Returned (), set_heap (<[t := PackagedTask f (Some (f ()))]> (heap s)) s)
  | Some (PackagedTask _ (Some _)) =>
      (Threw (future_error promise_already_satisfied), s)
  | None => (Threw (future_error no_state), s)
  end.

(** Lines 26-32: whatever [task()] throws is reported and dropped. *)
Definition run_task (t : nat) (s : state) : state :=
  match invoke t s with
  | (Returned _, s') => s'
  | (Threw e, s') => set_cerr (cerr s' ++ [e]) s'
  end.

(** ** [std::future::get]

    It needs a valid future, waits until the shared state is ready, then
    returns the value or rethrows the stored exception, and leaves the
    future without a state ([valid() == false]).  On a future that is
    not valid its behaviour is undefined.  [get fut s] is what a call
    gives while the packaged tasks are as in [s]; for a call made after
    the pool is gone, [s] is a state that [destroy_members] gave. *)
Inductive got :=
| Got (o : result T) (fut' : future)
| Blocks
| Undefined.

Definition get (fut : future) (s : state) : got :=
  match fstate fut with
  | None => Undefined
  | Some t =>
      match heap s !! t with
      | Some (PackagedTask _ (Some o)) => Got o (Future None)
      | Some (PackagedTask _ None) => Blocks
      | None => Undefined
      end
  end.

(** ** Transitions *)

Inductive label :=
| LEnqueue (f : callable) (t : nat)  (* [enqueue] queued task [t] *)
| LReject (f : callable)             (* [enqueue] threw *)
| LWake (w : nat)                    (* worker [w] leaves [wait]: notified
                                        by line 51, or spuriously *)
| LWait (w : nat)                    (* predicate false, [w] sleeps *)
| LDequeue (w t : nat)               (* [w] took [t] off the queue *)
| LExit (w : nat)                    (* [w] returned at line 22 *)
| LStart (w t : nat)                 (* [w] enters [task()] *)
| LFinish (w t : nat)                (* [task()] is over, back to line 17 *)
| LStop                              (* lines 56-59 *)
| LNotifyAll                         (* line 60 *)
| LJoin (i : nat)                    (* lines 62-64 for [workers[i]] *)
| LReturn.                           (* the loop of line 61 is over *)

Definition wake (th : thread) : thread :=
  match pc th with
  | Waiting => Thread Ready (joinable th)
  | _ => th
  end.

Definition at_pc (w : nat) (s : state) : option wpc := pc <$> workers s !! w.

Definition step (l : label) (s : state) : option state :=
  match l with
  | LEnqueue f t =>
      match enqueue f s with
      | (Returned (Future (Some t')), s') =>
          if bool_decide (t' = t) then Some s' else None
      | _ => None
      end
  | LReject f =>
      match enqueue f s with
      | (Threw _, s') => Some s'
      | _ => None
      end
  | LWake w =>
      match at_pc w s with
      | Some Waiting => Some (set_pc w Ready s)
      | _ => None
      end
  | LWait w =>
      match at_pc w s, critical s with
      | Some Ready, (Waiting, _) => Some (set_pc w Waiting s)
      | _, _ => None
      end
  | LDequeue w t =>
      match at_pc w s, critical s with
      | Some Ready, (Claimed t', q) =>
          if bool_decide (t' = t)
          then Some (set_pc w (Claimed t) (set_tasks q s))
          else None
      | _, _ => None
      end
  | LExit w =>
      match at_pc w s, critical s with
      | Some Ready, (Exited, _) => Some (set_pc w Exited s)
      | _, _ => None
      end
  | LStart w t =>
      match at_pc w s with
      | Some (Claimed t') =>
          if bool_decide (t' = t) then Some (set_pc w (Running t) s) else None
      | _ => None
      end
  | LFinish w t =>
      match at_pc w s with
      | Some (Running t') =>
          if bool_decide (t' = t) then Some (set_pc w Ready (run_task t s)) else None
      | _ => None
      end
  | LStop =>
      match dtor s with
      | DNone => Some (set_dtor DNotify (set_stop true s))
      | _ => None
      end
  | LNotifyAll =>
      match dtor s with
      | DNotify => Some (set_dtor (DJoin 0) (set_workers (wake <$> workers s) s))
      | _ => None
      end
  | LJoin i =>
      match dtor s, workers s !! i with
      | DJoin j, Some th =>
          if bool_decide (j = i) then
            if joinable th then
              match pc th with
              | Exited =>
                  Some (set_dtor (DJoin (S i))
                          (set_workers (<[i := Thread Exited false]> (workers s)) s))
              | _ => None
              end
            else Some (set_dtor (DJoin (S i)) s)
          else None
      | _, _ => None
      end
  | LReturn =>
      match dtor s with
      | DJoin j =>
          if bool_decide (j = length (workers s)) then Some (set_dtor DDone s) else None
      | _ => None
      end
  end.

Fixpoint exec (tr : list label) (s : state) : option state :=
  match tr with
  | [] => Some s
  | l :: tr' =>
      match step l s with
      | Some s' => exec tr' s'
      | None => None
      end
  end.

(** [s] is what a pool of [n] workers has become after the execution [tr]. *)
Definition reach (n : nat) (tr : list label) (s : state) : Prop :=
  exec tr (ThreadPool n) = Some s.

(** ** The transitions as a relation

    The same transitions, one rule each, with the conditions under which
    they fire written out; [step] fires exactly by these rules. *)

Inductive Step : label → state → state → Prop :=
| S_enqueue f s :
    stop s = false →
    Step (LEnqueue f (length (heap s))) s
      (set_tasks (tasks s ++ [length (heap s)])
         (set_heap (heap s ++ [PackagedTask f None]) s))
| S_reject f s :
    stop s = true →
    Step (LReject f) s s
| S_wake w j s :
    workers s !! w = Some (Thread Waiting j) →
    Step (LWake w) s (set_pc w Ready s)
| S_wait w j s :
    workers s !! w = Some (Thread Ready j) →
    tasks s = [] → stop s = false →
    Step (LWait w) s (set_pc w Waiting s)
| S_dequeue w j t q s :
    workers s !! w = Some (Thread Ready j) →
    tasks s = t :: q →
    Step (LDequeue w t) s (set_pc w (Claimed t) (set_tasks q s))
| S_exit w j s :
    workers s !! w = Some (Thread Ready j) →
    tasks s = [] → stop s = true →
    Step (LExit w) s (set_pc w Exited s)
| S_start w j t s :
    workers s !! w = Some (Thread (Claimed t) j) →
    Step (LStart w t) s (set_pc w (Running t) s)
| S_finish w j t s :
    workers s !! w = Some (Thread (Running t) j) →
    Step (LFinish w t) s (set_pc w Ready (run_task t s))
| S_stop s :
    dtor s = DNone →
    Step LStop s (set_dtor DNotify (set_stop true s))
| S_notify_all s :
    dtor s = DNotify →
    Step LNotifyAll s (set_dtor (DJoin 0) (set_workers (wake <$> workers s) s))
| S_join i s :
    dtor s = DJoin i →
    workers s !! i = Some (Thread Exited true) →
    Step (LJoin i) s
      (set_dtor (DJoin (S i))
         (set_workers (<[i := Thread Exited false]> (workers s)) s))
| S_join_skip i p s :
    dtor s = DJoin i →
    workers s !! i = Some (Thread p false) →
    Step (LJoin i) s (set_dtor (DJoin (S i)) s)
| S_return s :
    dtor s = DJoin (length (workers s)) →
    Step LReturn s (set_dtor DDone s).

(** ** What an execution shows

    The tasks queued, taken off the queue, entered and finished, in the
    order in which it happened. *)
Definition enq_of (l : label) : option nat :=
  match l with LEnqueue _ t => Some t | _ => None end.
Definition deq_of (l : label) : option nat :=
  match l with LDequeue _ t => Some t | _ => None end.
Definition start_of (l : label) : option nat :=
  match l with LStart _ t => Some t | _ => None end.
Definition finish_of (l : label) : option nat :=
  match l with LFinish _ t => Some t | _ => None end.

Definition enqueued (tr : list label) : list nat := omap enq_of tr.
Definition dequeued (tr : list label) : list nat := omap deq_of tr.
Definition started (tr : list label) : list nat := omap start_of tr.
Definition finished (tr : list label) : list nat := omap finish_of tr.

(** The tasks the workers hold, outside the queue. *)
Definition claimed_of (th : thread) : option nat :=
  match pc th with Claimed t => Some t | _ => None end.
Definition running_of (th : thread) : option nat :=
  match pc th with Running t => Some t | _ => None end.

Definition claimed (s : state) : list nat := omap claimed_of (workers s).
Definition running (s : state) : list nat := omap running_of (workers s).

(** Worker [w] holds task [t]: it took it and has not finished it. *)
Definition holds (s : state) (w t : nat) : Prop :=
  at_pc w s = Some (Claimed t) ∨ at_pc w s = Some (Running t).

(** ** Accounting for every task

    The tasks are numbered in the order in which they are queued.  Those
    taken off the queue, then the queue from front to back, are all the
    tasks in that order; a task taken off is with one worker until it is
    finished. *)
Record accounted (tr : list label) (s : state) : Prop := Accounted {
  acc_enqueued : enqueued tr = seq 0 (length (heap s));
  acc_queue : dequeued tr ++ tasks s = enqueued tr;
  acc_claimed : started tr ++ claimed s ≡ₚ dequeued tr;
  acc_running : finished tr ++ running s ≡ₚ started tr
}.

(** Every packaged task keeps the callable it was made with; its slot
    holds what that callable gave once a worker has finished it, and is
    empty before; no worker has had anything to report. *)
Record fulfilment (tr : list label) (s : state) : Prop := Fulfilment {
  ful_body : ∀ f t, LEnqueue f t ∈ tr → fn <$> heap s !! t = Some f;
  ful_done : ∀ t pt,
    heap s !! t = Some pt → t ∈ finished tr → shared pt = Some (fn pt ());
  ful_pending : ∀ t pt,
    heap s !! t = Some pt → t ∉ finished tr → shared pt = None;
  ful_cerr : cerr s = []
}.

(** [a] comes strictly before [b] in [l]. *)
Definition before {A : Type} (a b : A) (l : list A) : Prop :=
  ∃ i j, i < j ∧ l !! i = Some a ∧ l !! j = Some b.

(** The states an execution goes through, the first one included. *)
Fixpoint history (tr : list label) (s : state) : list state :=
  s :: match tr with
       | [] => []
       | l :: tr' =>
           match step l s with
           | Some s' => history tr' s'
           | None => []
           end
       end.

(** ** After the destructor's body

    When line 66 is reached the members are destroyed.  With the queue
    go the closures still in it, and each of them owns the last
    reference to its packaged task (the other one was [enqueue]'s local
    [task]); a packaged task destroyed before it was invoked makes its
    shared state ready with [broken_promise].  The shared states live on
    with their futures. *)
Definition abandon (pt : packaged_task) : packaged_task :=
  match shared pt with
  | None => PackagedTask (fn pt) (Some (Threw (future_error broken_promise)))
  | Some _ => pt
  end.

Definition destroy_members (s : state) : state :=
  set_workers []
    (set_tasks []
       (set_heap
          (imap (λ t pt, if bool_decide (t ∈ tasks s) then abandon pt else pt)
             (heap s))
          s)).

(** What the thread that destroys a pool of [n] workers does, from
    line 56 to the return. *)
Definition destructor_run (n : nat) : list label :=
  [LStop; LNotifyAll] ++ (LJoin <$> seq 0 n) ++ [LReturn].

(** ** Progress of a shutdown

    The transitions of the workers and of the destructor once it is past
    line 58: everything but a submission and the entry into the
    destructor. *)
Definition internal (l : label) : bool :=
  match l with
  | LEnqueue _ _ | LReject _ | LStop => false
  | _ => true
  end.

(** Those of them that a thread makes by itself: a wake-up is not one,
    it takes a [notify] to cause it, or chance. *)
Definition own (l : label) : bool :=
  match l with
  | LWake _ => false
  | _ => internal l
  end.

(** How far a worker is from having returned, and the destructor from
    returning; a task in the queue counts for the three transitions it
    takes to run it. *)
Definition weight (p : wpc) : nat :=
  match p with
  | Exited => 0
  | Ready => 1
  | Waiting => 2
  | Running _ => 2
  | Claimed _ => 3
  end.

Definition dweight (n : nat) (d : dpc) : nat :=
  match d with
  | DNone => n + 3
  | DNotify => n + 2
  | DJoin i => n + 1 - i
  | DDone => 0
  end.

Definition measure (s : state) : nat :=
  3 * length (tasks s)
  + sum_list_with (λ th, weight (pc th)) (workers s)
  + dweight (length (workers s)) (dtor s).

End Pool.

Arguments callable : clear implicits.
Arguments packaged_task : clear implicits.
Arguments state : clear implicits.
Arguments label : clear implicits.
Arguments got : clear implicits.

(** ** Who moves *)

(** The worker that a transition belongs to, if it is a worker's. *)
Definition actor {T : Type} (l : label T) : option nat :=
  match l with
  | LWake w | LWait w | LDequeue w _ | LExit w | LStart w _ | LFinish w _ => Some w
  | _ => None
  end.

(** ** The notifications of line 51

    [enqueue] calls [notify_one] after it has released the lock.  Here
    the pool comes with the number of submitters that are between the
    two, and a worker leaves [wait] because of one of them ([NNotify]),
    unless it does so spuriously ([NPool (LWake w)]).  [notify_one]
    wakes one of the threads that wait, if there is any. *)

Section Notified.
Context {T : Type}.

Record nstate := NState { pool : state T; pending : nat }.

Inductive nlabel :=
| NPool (l : label T)       (* a transition of the pool *)
| NNotify (w : option nat). (* line 51, waking worker [w] or nobody *)

Definition awake (p : wpc) : bool :=
  match p with Waiting => false | _ => true end.

Definition nobody_waits (s : state T) : bool :=
  forallb (λ th, awake (pc th)) (workers s).

Definition nstep (nl : nlabel) (ns : nstate) : option nstate :=
  match nl with
  | NPool l =>
      match step l (pool ns) with
      | Some s' =>
          Some (NState s' (match l with
                           | LEnqueue _ _ => S (pending ns)
                           | _ => pending ns
                           end))
      | None => None
      end
  | NNotify w =>
      match pending ns, w with
      | 0, _ => None
      | S p, Some w =>
          match step (LWake w) (pool ns) with
          | Some s' => Some (NState s' p)
          | None => None
          end
      | S p, None =>
          if nobody_waits (pool ns) then Some (NState (pool ns) p) else None
      end
  end.

Fixpoint nexec (ntr : list nlabel) (ns : nstate) : option nstate :=
  match ntr with
  | [] => Some ns
  | nl :: ntr' =>
      match nstep nl ns with
      | Some ns' => nexec ntr' ns'
      | None => None
      end
  end.

Definition nreach (n : nat) (ntr : list nlabel) (ns : nstate) : Prop :=
  nexec ntr (NState (ThreadPool n) 0) = Some ns.

(** What the pool alone shows of such an execution. *)
Definition erase1 (nl : nlabel) : list (label T) :=
  match nl with
  | NPool l => [l]
  | NNotify (Some w) => [LWake w]
  | NNotify None => []
  end.

Definition erase (ntr : list nlabel) : list (label T) := ntr ≫= erase1.

(** The transitions that the code makes of itself: all but a submission
    and the entry into the destructor, which are the caller's, and a
    spurious wake-up, which is the system's. *)
Definition forced (nl : nlabel) : bool :=
  match nl with
  | NNotify _ => true
  | NPool l =>
      match l with
      | LEnqueue _ _ | LReject _ | LStop | LWake _ => false
      | _ => true
      end
  end.

(** A worker that will look at the queue without being woken. *)
Definition active (p : wpc) : bool :=
  match p with
  | Ready | Claimed _ | Running _ => true
  | Waiting | Exited => false
  end.

(** A bound on the forced transitions still to come. *)
Definition nweight (p : wpc) : nat :=
  match p with
  | Exited => 0
  | Waiting => 1
  | Ready => 2
  | Running _ => 3
  | Claimed _ => 4
  end.

Definition ndweight (n : nat) (d : dpc) : nat :=
  match d with
  | DNone => 2 * n + 3
  | DNotify => 2 * n + 2
  | DJoin i => n + 1 - i
  | DDone => 0
  end.

Definition nmeasure (ns : nstate) : nat :=
  3 * length (tasks (pool ns))
  + sum_list_with (λ th, nweight (pc th)) (workers (pool ns))
  + 2 * pending ns
  + ndweight (length (workers (pool ns))) (dtor (pool ns)).

End Notified.

Arguments nstate : clear implicits.
Arguments nlabel : clear implicits.

(** ** Tasks for concrete executions *)

(** The task [main] submits for [i] (line 96): it returns [i * i]. *)
Definition square (i : Z) : callable Z := λ _, Returned (i * i)%Z.

(** A task whose body throws. *)
Definition failing (what : string) : callable Z :=
  λ _, Threw (runtime_error what).

(** One worker, two tasks: the second is entered after the first is
    over. *)
Definition run_in_order : list (label Z) :=
  [LEnqueue (square 0) 0; LEnqueue (square 1) 1; LDequeue 0 0;
   LStart 0 0; LFinish 0 0; LDequeue 0 1; LStart 0 1].

(** Two workers, each with a task of its own. *)
Definition run_two_hands : list (label Z) :=
  [LEnqueue (square 0) 0; LEnqueue (square 1) 1; LDequeue 1 0;
   LDequeue 0 1; LStart 1 0].

(** Two workers and one task: worker 0 takes it, the pool is destroyed,
    and worker 1 returns at once. *)
Definition run_early_exit : list (label Z) :=
  [LEnqueue (square 3) 0; LDequeue 0 0; LStop; LExit 1].

(** The same execution carried on until the destructor returns. *)
Definition run_drained : list (label Z) :=
  run_early_exit ++
  [LNotifyAll; LStart 0 0; LFinish 0 0; LExit 0; LJoin 0; LJoin 1; LReturn].

(** One worker runs one task to its end. *)
Definition run_one_task : list (label Z) :=
  [LEnqueue (square 3) 0; LDequeue 0 0; LStart 0 0; LFinish 0 0].

(** Three tasks on one worker, the second of which throws. *)
Definition run_three_tasks : list (label Z) :=
  [LEnqueue (square 1) 0; LEnqueue (failing "boom") 1; LEnqueue (square 3) 2;
   LDequeue 0 0; LStart 0 0; LFinish 0 0;
   LDequeue 0 1; LStart 0 1; LFinish 0 1;
   LDequeue 0 2; LStart 0 2; LFinish 0 2].

(** A pool without a worker is given a task and destroyed. *)
Definition run_no_worker : list (label Z) :=
  [LEnqueue (square 3) 0; LStop; LNotifyAll; LReturn].

(** One worker and two tasks, the first of which throws: the worker is
    inside the first, the second is in the queue. *)
Definition run_failing : list (label Z) :=
  [LEnqueue (failing "boom") 0; LEnqueue (square 3) 1;
   LDequeue 0 0; LStart 0 0].

(** A pool of one worker is destroyed, and a submission comes while
    the destructor is under way. *)
Definition run_destroyed : list (label Z) :=
  [LStop; LNotifyAll; LReject (square 2); LExit 0; LJoin 0; LReturn].

(** ** The program [main] (lines 80-106)

    [main] builds the pool, submits eight tasks, the one for [i]
    returning [i * i], waits for the eight results in the order of the
    submissions and prints each, and returns, which destroys the pool.
    The line a task prints and the time it sleeps have no part in its
    value and are left out.  [main] is the only thread besides the
    workers. *)

Inductive mainpc :=
| MSubmit (i : nat)        (* in the loop of line 87, before [enqueue] for [i] *)
| MNotify (i : nat)        (* inside that call, at line 51 *)
| MGet (i : nat)           (* in the loop of line 101, before [get] on [results[i]] *)
| MDestroy                 (* at line 105, the pool being destroyed *)
| MDone                    (* [main] has returned *)
| MAbort (e : exception).  (* an exception has left [main] *)

Record prog := Prog {
  npool : nstate Z;
  mpc : mainpc;
  results : list future;   (* line 85 *)
  out : list Z             (* the values printed at line 102 *)
}.

Inductive plabel :=
| PMain (w : option nat)   (* [main] moves; at line 51 it wakes [w] *)
| PWorker (l : label Z).   (* a worker moves *)

Definition main_task (i : nat) : callable Z := square (Z.of_nat i).

Definition main_init (hint : nat) : prog :=
  Prog (NState (ThreadPool (main_threads hint)) 0) (MSubmit 0) [] [].

(** The tests of the two loops. *)
Definition after_submit (i : nat) : mainpc :=
  if bool_decide (S i < 8) then MSubmit (S i) else MGet 0.

Definition after_get (k i : nat) : mainpc :=
  if bool_decide (S i < k) then MGet (S i) else MDestroy.

Definition pstep (pl : plabel) (p : prog) : option prog :=
  match pl with
  | PWorker l =>
      match actor l, nstep (NPool l) (npool p) with
      | Some _, Some ns' => Some (Prog ns' (mpc p) (results p) (out p))
      | _, _ => None
      end
  | PMain w =>
      match mpc p with
      | MSubmit i =>
          match enqueue (main_task i) (pool (npool p)) with
          | (Returned fut, s') =>
              Some (Prog (NState s' (S (pending (npool p)))) (MNotify i)
                      (results p ++ [fut]) (out p))
          | (Threw e, s') =>
              Some (Prog (NState s' (pending (npool p))) (MAbort e)
                      (results p) (out p))
          end
      | MNotify i =>
          match nstep (NNotify w) (npool p) with
          | Some ns' => Some (Prog ns' (after_submit i) (results p) (out p))
          | None => None
          end
      | MGet i =>
          match results p !! i with
          | Some fut =>
              match get fut (pool (npool p)) with
              | Got (Returned v) fut' =>
                  Some (Prog (npool p) (after_get (length (results p)) i)
                          (<[i := fut']> (results p)) (out p ++ [v]))
              | Got (Threw e) fut' =>
                  Some (Prog (npool p) (MAbort e)
                          (<[i := fut']> (results p)) (out p))
              | Blocks | Undefined => None
              end
          | None => None
          end
      | MDestroy =>
          match dtor (pool (npool p)) with
          | DNone =>
              match nstep (NPool LStop) (npool p) with
              | Some ns' => Some (Prog ns' MDestroy (results p) (out p))
              | None => None
              end
          | DNotify =>
              match nstep (NPool LNotifyAll) (npool p) with
              | Some ns' => Some (Prog ns' MDestroy (results p) (out p))
              | None => None
              end
          | DJoin i =>
              if bool_decide (i = length (workers (pool (npool p)))) then
                match nstep (NPool LReturn) (npool p) with
                | Some ns' => Some (Prog ns' MDone (results p) (out p))
                | None => None
                end
              else
                match nstep (NPool (LJoin i)) (npool p) with
                | Some ns' => Some (Prog ns' MDestroy (results p) (out p))
                | None => None
                end
          | DDone => None
          end
      | MDone | MAbort _ => None
      end
  end.

Fixpoint pexec (ptr : list plabel) (p : prog) : option prog :=
  match ptr with
  | [] => Some p
  | pl :: ptr' =>
      match pstep pl p with
      | Some p' => pexec ptr' p'
      | None => None
      end
  end.

Definition preach (hint : nat) (ptr : list plabel) (p : prog) : Prop :=
  pexec ptr (main_init hint) = Some p.

(** All moves but a spurious wake-up. *)
Definition pforced (pl : plabel) : bool :=
  match pl with
  | PMain _ => true
  | PWorker (LWake _) => false
  | PWorker _ => true
  end.

(** The squares of the first [k] numbers, and the futures [main] holds
    when it has read the first [i] of [k]. *)
Definition squares (k : nat) : list Z :=
  (λ i, (Z.of_nat i * Z.of_nat i)%Z) <$> seq 0 k.

Definition handles (i k : nat) : list future :=
  replicate i (Future None) ++ ((λ t, Future (Some t)) <$> seq i (k - i)).

(** Where [main] stands against what the pool holds. *)
Definition main_inv (p : prog) : Prop :=
  let s := pool (npool p) in
  (∀ t pt, heap s !! t = Some pt → fn pt = main_task t) ∧
  match mpc p with
  | MSubmit i =>
      i < 8 ∧ length (heap s) = i ∧ results p = handles 0 i ∧
      pending (npool p) = 0 ∧ dtor s = DNone ∧ out p = []
  | MNotify i =>
      i < 8 ∧ length (heap s) = S i ∧ results p = handles 0 (S i) ∧
      pending (npool p) = 1 ∧ dtor s = DNone ∧ out p = []
  | MGet i =>
      i < 8 ∧ length (heap s) = 8 ∧ results p = handles i 8 ∧
      pending (npool p) = 0 ∧ dtor s = DNone ∧ out p = squares i
  | MDestroy =>
      pending (npool p) = 0 ∧ dtor s ≠ DDone ∧ out p = squares 8
  | MDone =>
      pending (npool p) = 0 ∧ dtor s = DDone ∧ out p = squares 8
  | MAbort _ => False
  end.

(** A bound on the moves [main] still has to make. *)
Definition mweight (m : mainpc) : nat :=
  match m with
  | MSubmit i => 6 * (8 - i) + 9
  | MNotify i => 6 * (8 - i) + 3
  | MGet i => 9 - i
  | MDestroy => 1
  | MDone | MAbort _ => 0
  end.

Definition pmeasure (p : prog) : nat := nmeasure (npool p) + mweight (mpc p).

(** An execution of [main] on a machine that reports one hardware
    thread: the one worker runs the eight tasks while [main] waits. *)
Definition run_main : list plabel :=
  mjoin ((λ _, [PMain None; PMain None]) <$> seq 0 8)
  ++ mjoin ((λ i, [PWorker (LDequeue 0 i); PWorker (LStart 0 i);
                   PWorker (LFinish 0 i)]) <$> seq 0 8)
  ++ ((λ _, PMain None) <$> seq 0 8)
  ++ [PMain None; PMain None; PWorker (LExit 0); PMain None; PMain None].

(** The same execution when [main] has submitted the eight tasks and no
    worker has moved yet, and when [main] has read the eight results and
    the destructor has come to its first [join]. *)
Definition run_submitted : list plabel := take 16 run_main.
Definition run_joining : list plabel := take 50 run_main.

(** One worker goes to sleep and a task is submitted; then line 51
    wakes the worker, which runs the task. *)
Definition run_queued : list (nlabel Z) :=
  [NPool (LWait 0); NPool (LEnqueue (square 3) 0)].

Definition run_served : list (nlabel Z) :=
  [NNotify (Some 0); NPool (LDequeue 0 0); NPool (LStart 0 0);
   NPool (LFinish 0 0)].

(** One worker goes to sleep, a task is submitted, and line 51 wakes
    the worker. *)
Definition run_notified : list (nlabel Z) :=
  [NPool (LWait 0); NPool (LEnqueue (square 3) 0); NNotify (Some 0)].

(** * Proofs *)

(** ** The function [step] and the relation [Step] *)

Section Rules.
Context {T : Type}.
Implicit Types (s : state T) (f : callable T) (l : label T) (tr : list (label T)).

Lemma state_eta s :
  State (workers s) (tasks s) (stop s) (heap s) (cerr s) (dtor s) = s.
Proof. by destruct s. Qed.

Lemma release_alloc f s :
  release (length (heap s)) (set_heap (heap s ++ [PackagedTask f None]) s) = s.
Proof.
  unfold release, set_heap; simpl.
  rewrite take_app_length. apply state_eta.
Qed.

Lemma enqueue_running f s :
  stop s = false →
  enqueue f s =
    (Returned (Future (Some (length (heap s)))),
     set_tasks (tasks s ++ [length (heap s)])
       (set_heap (heap s ++ [PackagedTask f None]) s)).
Proof. intros Hs. unfold enqueue; simpl. by rewrite Hs. Qed.

Lemma enqueue_stopped f s :
  stop s = true →
  enqueue f s = (Threw (runtime_error "enqueue on stopped ThreadPool"), s).
Proof.
  intros Hs. unfold enqueue. cbn [stop set_heap]. rewrite Hs.
  by rewrite release_alloc.
Qed.

Lemma at_pc_Some w s p :
  at_pc w s = Some p → ∃ j, workers s !! w = Some (Thread p j).
Proof.
  unfold at_pc. destruct (workers s !! w) as [[p' j]|]; simpl; [|done].
  intros [= ->]. by exists j.
Qed.

Lemma at_pc_lookup w s p j :
  workers s !! w = Some (Thread p j) → at_pc w s = Some p.
Proof. unfold at_pc. by intros ->. Qed.

Lemma step_Step l s s' : step l s = Some s' → Step l s s'.
Proof.
  destruct l as [f t|f|w|w|w t|w|w t|w t| | |i| ]; simpl.
  - destruct (stop s) eqn:Hs.
    + by rewrite (enqueue_stopped _ _ Hs).
    + rewrite (enqueue_running _ _ Hs). case_bool_decide; [|done].
      intros [= <-]. subst t. by constructor.
  - destruct (stop s) eqn:Hs.
    + rewrite (enqueue_stopped _ _ Hs). intros [= <-]. by constructor.
    + by rewrite (enqueue_running _ _ Hs).
  - destruct (at_pc w s) as [p|] eqn:Hw; [|done].
    apply at_pc_Some in Hw as [j Hw].
    destruct p; try done. intros [= <-]. by econstructor.
  - destruct (at_pc w s) as [p|] eqn:Hw; [|done].
    apply at_pc_Some in Hw as [j Hw]. unfold critical.
    destruct p; try done.
    destruct (tasks s) eqn:Hq, (stop s) eqn:Hs; try done.
    intros [= <-]. by econstructor.
  - destruct (at_pc w s) as [p|] eqn:Hw; [|done].
    apply at_pc_Some in Hw as [j Hw]. unfold critical.
    destruct p; try done.
    destruct (tasks s) as [|t' q] eqn:Hq, (stop s) eqn:Hs; try done;
      (case_bool_decide; [|done]); intros [= <-]; subst t'; by econstructor.
  - destruct (at_pc w s) as [p|] eqn:Hw; [|done].
    apply at_pc_Some in Hw as [j Hw]. unfold critical.
    destruct p; try done.
    destruct (tasks s) eqn:Hq, (stop s) eqn:Hs; try done.
    intros [= <-]. by econstructor.
  - destruct (at_pc w s) as [p|] eqn:Hw; [|done].
    apply at_pc_Some in Hw as [j Hw].
    destruct p; try done. case_bool_decide; [|done].
    intros [= <-]. subst. by econstructor.
  - destruct (at_pc w s) as [p|] eqn:Hw; [|done].
    apply at_pc_Some in Hw as [j Hw].
    destruct p; try done. case_bool_decide; [|done].
    intros [= <-]. subst. by econstructor.
  - destruct (dtor s) eqn:Hd; try done; intros [= <-]; constructor; auto.
  - destruct (dtor s) eqn:Hd; try done. intros [= <-]. by constructor.
  - destruct (dtor s) as [| |j|] eqn:Hd; try done.
    destruct (workers s !! i) as [[p jn]|] eqn:Hw; [|done].
    case_bool_decide; [|done]. subst j. simpl.
    destruct jn.
    + destruct p; try done. intros [= <-]. by constructor.
    + intros [= <-]. by econstructor.
  - destruct (dtor s) as [| |j|] eqn:Hd; try done.
    case_bool_decide; [|done]. subst j. intros [= <-]. by constructor.
Qed.

Lemma Step_step l s s' : Step l s s' → step l s = Some s'.
Proof.
  destruct 1; simpl; unfold critical;
    repeat match goal with
      | H : workers _ !! _ = Some _ |- _ =>
          rewrite ?(at_pc_lookup _ _ _ _ H), ?H; clear H
      | H : stop _ = _ |- _ =>
          rewrite ?(enqueue_running _ _ H), ?(enqueue_stopped _ _ H), ?H; clear H
      | H : tasks _ = _ |- _ => rewrite H; clear H
      | H : dtor _ = _ |- _ => rewrite H; clear H
      | H : _ ∨ _ |- _ => destruct H
      end; simpl; rewrite ?bool_decide_eq_true_2 by done; done.
Qed.

(** ** Executions *)

Lemma exec_app tr1 tr2 s :
  exec (tr1 ++ tr2) s = exec tr1 s ≫= exec tr2.
Proof.
  revert s. induction tr1 as [|l tr1 IH]; intros s; simpl; [done|].
  destruct (step l s); simpl; [apply IH|done].
Qed.

Lemma exec_snoc tr l s s' :
  exec (tr ++ [l]) s = Some s' ↔ ∃ s1, exec tr s = Some s1 ∧ step l s1 = Some s'.
Proof.
  rewrite exec_app. split.
  - destruct (exec tr s) as [s1|]; simpl; [|done].
    destruct (step l s1) eqn:Hl; [|done]. intros [= <-]. eauto.
  - intros (s1 & -> & Hl). simpl. by rewrite Hl.
Qed.

(** Induction over the executions of a pool, last transition first. *)
Lemma reach_ind n (P : list (label T) → state T → Prop) :
  P [] (ThreadPool n) →
  (∀ tr s l s', reach n tr s → P tr s → Step l s s' → P (tr ++ [l]) s') →
  ∀ tr s, reach n tr s → P tr s.
Proof.
  intros H0 HS tr. induction tr as [|l tr IH] using rev_ind; intros s Hr.
  - injection Hr as <-. exact H0.
  - apply exec_snoc in Hr as (s1 & Hr & Hl).
    eapply HS; eauto using step_Step.
Qed.

Lemma reach_nil n : reach (T:=T) n [] (ThreadPool n).
Proof. done. Qed.

Lemma reach_snoc n tr l s s' :
  reach n tr s → Step l s s' → reach n (tr ++ [l]) s'.
Proof. intros Hr Hs. apply exec_snoc. eauto using Step_step. Qed.

End Rules.

(** ** Lists read through a partial observation *)

Section Omap.
Context {A B : Type} (g : A → option B).
Implicit Types (l : list A).

Lemma omap_snoc l x : omap g (l ++ [x]) = omap g l ++ option_list (g x).
Proof. rewrite omap_app. simpl. by destruct (g x). Qed.

Lemma omap_alter (h : A → A) l i x :
  l !! i = Some x →
  option_list (g x) ++ omap g (alter h i l) ≡ₚ option_list (g (h x)) ++ omap g l.
Proof.
  revert i. induction l as [|a l IH]; intros [|i] Hi; simplify_eq/=.
  - destruct (g x), (g (h x)); simpl; try done. apply perm_swap.
  - specialize (IH _ Hi). destruct (g a) as [b|]; [|done].
    rewrite <-!Permutation_middle. by f_equiv.
Qed.

Lemma omap_alter_same (h : A → A) l i x :
  l !! i = Some x → g (h x) = g x → omap g (alter h i l) = omap g l.
Proof.
  revert i. induction l as [|a l IH]; intros [|i] Hi Hg; simplify_eq/=.
  - by rewrite Hg.
  - by rewrite (IH _ Hi Hg).
Qed.

Lemma omap_fmap_same (h : A → A) l :
  (∀ x, g (h x) = g x) → omap g (h <$> l) = omap g l.
Proof.
  intros Hg. induction l as [|a l IH]; csimpl; [done|]. by rewrite Hg, IH.
Qed.

Lemma elem_of_omap_lookup l i x b :
  l !! i = Some x → g x = Some b → b ∈ omap g l.
Proof.
  intros Hi Hg. apply list_elem_of_omap. exists x. split; [|done].
  by eapply list_elem_of_lookup_2.
Qed.

(** Two positions observed as the same value make a repetition. *)
Lemma omap_NoDup_lookup l i j x y b :
  NoDup (omap g l) →
  l !! i = Some x → l !! j = Some y → g x = Some b → g y = Some b → i = j.
Proof.
  revert i j. induction l as [|a l IH]; intros i j Hnd Hi Hj Hx Hy; [done|].
  simpl in Hnd.
  destruct i as [|i], j as [|j]; simplify_eq/=; try done.
  - rewrite Hx in Hnd. apply NoDup_cons in Hnd as [Hb _].
    destruct Hb. by eapply elem_of_omap_lookup.
  - rewrite Hy in Hnd. apply NoDup_cons in Hnd as [Hb _].
    destruct Hb. by eapply elem_of_omap_lookup.
  - f_equal. destruct (g a); [apply NoDup_cons in Hnd as [_ Hnd]|]; eauto.
Qed.

Lemma omap_NoDup_elem l x y b :
  NoDup (omap g l) → x ∈ l → y ∈ l → g x = Some b → g y = Some b → x = y.
Proof.
  intros Hnd [i Hi]%list_elem_of_lookup_1 [j Hj]%list_elem_of_lookup_1 Hx Hy.
  assert (i = j) as -> by eauto using omap_NoDup_lookup. congruence.
Qed.

End Omap.

(** ** How a transition changes what the workers hold *)

Section Held.
Context {T : Type}.
Implicit Types (s : state T) (f : callable T) (l : label T) (tr : list (label T)).

Lemma claimed_wake (ws : list thread) : omap claimed_of (wake <$> ws) = omap claimed_of ws.
Proof. apply omap_fmap_same. intros [[] j]; done. Qed.

Lemma running_wake (ws : list thread) : omap running_of (wake <$> ws) = omap running_of ws.
Proof. apply omap_fmap_same. intros [[] j]; done. Qed.

Lemma heap_run_task t s : length (heap (run_task t s)) = length (heap s).
Proof.
  unfold run_task, invoke.
  destruct (heap s !! t) as [[g [o|]]|]; simpl; try done.
  by rewrite length_insert.
Qed.

Lemma heap_run_task_ne t s t' :
  t' ≠ t → heap (run_task t s) !! t' = heap s !! t'.
Proof.
  intros Hne. unfold run_task, invoke.
  destruct (heap s !! t) as [[g [o|]]|]; simpl; try done.
  by rewrite list_lookup_insert_ne.
Qed.

Lemma workers_run_task t s : workers (run_task t s) = workers s.
Proof.
  unfold run_task, invoke. by destruct (heap s !! t) as [[g [o|]]|].
Qed.

Lemma tasks_run_task t s : tasks (run_task t s) = tasks s.
Proof.
  unfold run_task, invoke. by destruct (heap s !! t) as [[g [o|]]|].
Qed.

Lemma stop_run_task t s : stop (run_task t s) = stop s.
Proof.
  unfold run_task, invoke. by destruct (heap s !! t) as [[g [o|]]|].
Qed.

Lemma dtor_run_task t s : dtor (run_task t s) = dtor s.
Proof.
  unfold run_task, invoke. by destruct (heap s !! t) as [[g [o|]]|].
Qed.

(** What one transition does to the queue, to the numbering of the
    tasks, and to the tasks the workers hold. *)
Lemma Step_queue l s s' :
  Step l s s' →
  option_list (deq_of l) ++ tasks s' = tasks s ++ option_list (enq_of l).
Proof.
  destruct 1; simpl; rewrite ?tasks_run_task, ?app_nil_r; done.
Qed.

Lemma Step_heap l s s' :
  Step l s s' →
  seq 0 (length (heap s')) = seq 0 (length (heap s)) ++ option_list (enq_of l).
Proof.
  destruct 1; simpl; rewrite ?heap_run_task, ?app_nil_r; try done.
  by rewrite length_app, Nat.add_1_r, seq_S.
Qed.

Lemma Step_claimed l s s' :
  Step l s s' →
  option_list (start_of l) ++ claimed s' ≡ₚ option_list (deq_of l) ++ claimed s.
Proof.
  destruct 1; unfold claimed; simpl;
    rewrite ?workers_run_task, ?claimed_wake; try done;
    try match goal with
      | H : workers ?s !! ?w = Some ?x |- context [alter ?h ?w (workers ?s)] =>
          exact (omap_alter claimed_of h _ _ _ H)
      end.
  rewrite list_insert_alter.
  by rewrite (omap_alter_same claimed_of _ _ _ _ H0).
Qed.

Lemma Step_running l s s' :
  Step l s s' →
  option_list (finish_of l) ++ running s' ≡ₚ option_list (start_of l) ++ running s.
Proof.
  destruct 1; unfold running; simpl;
    rewrite ?workers_run_task, ?running_wake; try done;
    try match goal with
      | H : workers ?s !! ?w = Some ?x |- context [alter ?h ?w (workers ?s)] =>
          exact (omap_alter running_of h _ _ _ H)
      end.
  rewrite list_insert_alter.
  by rewrite (omap_alter_same running_of _ _ _ _ H0).
Qed.

Lemma reach_accounted n tr s : reach n tr s → accounted tr s.
Proof.
  revert tr s. apply reach_ind.
  { split; simpl; try done.
    - unfold claimed; simpl. induction n; simpl; done.
    - unfold running; simpl. induction n; simpl; done. }
  intros tr s l s' _ [He Hq Hc Hr] Hstep.
  pose proof (Step_queue _ _ _ Hstep) as Hq'.
  pose proof (Step_heap _ _ _ Hstep) as Hh'.
  pose proof (Step_claimed _ _ _ Hstep) as Hc'.
  pose proof (Step_running _ _ _ Hstep) as Hr'.
  split; unfold enqueued, dequeued, started, finished in *; rewrite ?omap_snoc.
  - by rewrite Hh', He.
  - by rewrite <-(assoc_L (++)), Hq', (assoc_L (++)), Hq.
  - by rewrite <-(assoc_L (++)), Hc', (comm (++) (option_list _)), (assoc_L (++)), Hc.
  - by rewrite <-(assoc_L (++)), Hr', (comm (++) (option_list _)), (assoc_L (++)), Hr.
Qed.

End Held.

(** ** The control state along an execution *)

Section Control.
Context {T : Type}.
Implicit Types (s : state T) (f : callable T) (l : label T) (tr : list (label T)).
Implicit Types (th : thread).

(** Reading a worker after a transition back to the worker before it. *)
Ltac lookup_inv :=
  repeat match goal with
    | H : context [workers (run_task _ _)] |- _ => rewrite workers_run_task in H
    | H : context [<[_ := _]> _ !! _] |- _ => rewrite list_insert_alter in H
    | H : alter _ ?w _ !! ?w' = Some _ |- _ =>
        rewrite list_lookup_alter in H; case_decide; subst
    | H : (wake <$> _) !! _ = Some _ |- _ =>
        apply list_lookup_fmap_Some in H as (? & -> & H)
    | H1 : ?l !! ?w = Some _, H2 : context [?l !! ?w] |- _ =>
        rewrite H1 in H2; simpl in H2
    end; simplify_eq/=.

(** Induction on the execution when the goal quantifies after [reach]. *)
Ltac reach_induction :=
  match goal with
  | |- ∀ tr s, reach ?n tr s → @?P tr s => apply (reach_ind n P)
  end.

Lemma wake_pc th : pc (wake th) ≠ Waiting.
Proof. by destruct th as [[] j]. Qed.

Lemma wake_joinable th : joinable (wake th) = joinable th.
Proof. by destruct th as [[] j]. Qed.

Lemma wake_Exited th : pc (wake th) = Exited → pc th = Exited.
Proof. by destruct th as [[] j]. Qed.

Lemma reach_workers n tr s : reach n tr s → length (workers s) = n.
Proof.
  revert tr s. apply reach_ind.
  { simpl. apply length_replicate. }
  intros tr s l s' _ IH Hstep.
  destruct Hstep; simpl;
    rewrite ?length_alter, ?length_fmap, ?length_insert, ?workers_run_task; done.
Qed.

(** [stop] never goes back to [false], and only line 58 sets it. *)
Lemma Step_stop_mono l s s' : Step l s s' → stop s = true → stop s' = true.
Proof. destruct 1; simpl; rewrite ?stop_run_task; done. Qed.

Lemma Step_stop_set l s s' :
  Step l s s' → stop s = false → stop s' = true → l = LStop.
Proof. destruct 1; simpl; rewrite ?stop_run_task; congruence. Qed.

Lemma Step_stop_LStop s s' : Step LStop s s' → stop s' = true.
Proof. by inversion 1. Qed.

Lemma Step_dtor_stop l s s' :
  Step l s s' →
  (stop s = false ↔ dtor s = DNone) → (stop s' = false ↔ dtor s' = DNone).
Proof.
  destruct 1; simpl; rewrite ?stop_run_task, ?dtor_run_task; try done;
    intros ->; rewrite H; done.
Qed.

(** [stop] is set exactly when the destructor has been entered. *)
Lemma reach_stop n tr s :
  reach n tr s →
  (stop s = true ↔ LStop ∈ tr) ∧ (stop s = false ↔ dtor s = DNone).
Proof.
  revert tr s. apply reach_ind.
  { simpl. split; [|done]. split; [done|]. by intros ?%elem_of_nil. }
  intros tr s l s' _ [IH1 IH2] Hstep.
  split; [|by eapply Step_dtor_stop].
  rewrite elem_of_app, list_elem_of_singleton. split.
  - intros Hs'. destruct (stop s) eqn:Hs.
    + left. by apply IH1.
    + right. symmetry. by eapply Step_stop_set.
  - intros [Hin | <-].
    + eapply Step_stop_mono; [done|]. by apply IH1.
    + by eapply Step_stop_LStop.
Qed.

(** A worker has returned only with [stop] set and the queue empty,
    and the queue stays empty from then on. *)
Lemma Step_drained l s s' :
  Step l s s' → stop s = true → tasks s = [] → tasks s' = [].
Proof. destruct 1; simpl; rewrite ?tasks_run_task; congruence. Qed.

Lemma reach_exited n tr s :
  reach n tr s →
  ∀ w th, workers s !! w = Some th → pc th = Exited →
  stop s = true ∧ tasks s = [].
Proof.
  revert tr s. reach_induction.
  { simpl. intros w th [-> _]%lookup_replicate. done. }
  intros tr s l s' _ IH Hstep w th Hw Hp.
  assert (stop s = true ∧ tasks s = []) as [Hs Hq];
    [|eauto using Step_stop_mono, Step_drained].
  destruct Hstep; simpl in *; lookup_inv; try (by eauto).
  apply wake_Exited in Hp. eauto.
Qed.

(** Only a thread that has returned has been joined. *)
Lemma reach_joined n tr s :
  reach n tr s →
  ∀ w th, workers s !! w = Some th → joinable th = false → pc th = Exited.
Proof.
  revert tr s. reach_induction.
  { simpl. intros w th [-> _]%lookup_replicate. done. }
  intros tr s l s' _ IH Hstep w th Hw Hj.
  destruct Hstep; simpl in *; lookup_inv; try (by eauto);
    try match goal with
      | H : workers s !! _ = Some (Thread _ false) |- _ =>
          by specialize (IH _ _ H eq_refl)
      end.
  rewrite wake_joinable in Hj. specialize (IH _ _ Hw Hj).
  destruct x as [[] ?]; done.
Qed.

(** The loop of line 61 has joined every worker before its index. *)
Lemma reach_join n tr s :
  reach n tr s →
  ∀ i, dtor s = DJoin i →
  i ≤ length (workers s) ∧
  ∀ w th, w < i → workers s !! w = Some th → joinable th = false.
Proof.
  revert tr s. reach_induction.
  { done. }
  intros tr s l s' _ IH Hstep i Hd.
  destruct Hstep; simpl in *; rewrite ?dtor_run_task in Hd; simplify_eq;
    rewrite ?length_alter, ?length_insert, ?workers_run_task;
    try (destruct (IH _ Hd) as [Hi Hlt]; split; [done|];
         intros w' th' Hw' Hth'; lookup_inv;
         first [ by eauto
               | match goal with
                 | H : workers s !! _ = Some _ |- _ => exact (Hlt _ _ Hw' H)
                 end ]).
  - split; [lia|]. intros; lia.
  - destruct (IH _ H) as [Hi Hlt].
    split; [by apply lookup_lt_Some in H0|].
    intros w' th' Hw' Hth'. lookup_inv; [done|].
    eapply Hlt; [|done]. lia.
  - destruct (IH _ H) as [Hi Hlt].
    split; [by apply lookup_lt_Some in H0|].
    intros w' th' Hw' Hth'.
    match goal with
    | H : workers s !! ?i = Some _ |- _ =>
        destruct (decide (w' = i)) as [->|]; [by simplify_eq|]
    end.
    eapply Hlt; [|done]. lia.
Qed.

(** When the destructor has returned every worker has returned and has
    been joined. *)
Lemma reach_done n tr s :
  reach n tr s →
  dtor s = DDone →
  ∀ w th, workers s !! w = Some th → th = Thread Exited false.
Proof.
  revert tr s. reach_induction.
  { done. }
  intros tr s l s' Hr IH Hstep Hd w th Hw.
  destruct Hstep; simpl in *; rewrite ?dtor_run_task in Hd; try done;
    try (specialize (IH Hd); first
           [ by eauto
           | by match goal with
                | H : workers s !! _ = Some _ |- _ => specialize (IH _ _ H)
                end ]).
  destruct (reach_join _ _ _ Hr _ H) as [_ Hlt].
  assert (joinable th = false) as Hj.
  { eapply Hlt; [|done]. by eapply lookup_lt_Some. }
  pose proof (reach_joined _ _ _ Hr _ _ Hw Hj).
  by destruct th as [? ?]; simplify_eq/=.
Qed.

(** Once [notify_all] has been called no worker sleeps. *)
Lemma reach_awake n tr s :
  reach n tr s →
  dtor s ≠ DNone → dtor s ≠ DNotify →
  ∀ w th, workers s !! w = Some th → pc th ≠ Waiting.
Proof.
  revert tr s. reach_induction.
  { done. }
  intros tr s l s' Hr IH Hstep Hd1 Hd2 w th Hw.
  destruct (reach_stop _ _ _ Hr) as [_ Hs].
  destruct Hstep; simpl in *; rewrite ?dtor_run_task in Hd1, Hd2;
    try done; lookup_inv; try (by eauto);
    try (by eapply IH; [congruence..|done]).
  - rewrite Hs in H1. done.
  - apply wake_pc.
Qed.

End Control.

(** ** The result slots along an execution *)

Section Slots.
Context {T : Type}.
Implicit Types (s : state T) (f : callable T) (l : label T) (tr : list (label T)).
Implicit Types (pt : packaged_task T).

Lemma accounted_perm tr s :
  accounted tr s →
  finished tr ++ running s ++ claimed s ++ tasks s ≡ₚ seq 0 (length (heap s)).
Proof.
  intros [He Hq Hc Hr].
  by rewrite <-He, <-Hq, <-Hc, <-Hr, <-!app_assoc.
Qed.

Lemma accounted_NoDup tr s :
  accounted tr s → NoDup (finished tr ++ running s ++ claimed s ++ tasks s).
Proof. intros ->%accounted_perm. apply NoDup_seq. Qed.

Lemma accounted_lt tr s t :
  accounted tr s →
  t ∈ finished tr ++ running s ++ claimed s ++ tasks s → t < length (heap s).
Proof.
  intros Hacc Ht. rewrite (accounted_perm _ _ Hacc) in Ht.
  apply elem_of_seq in Ht. lia.
Qed.

Lemma running_lookup s w t j :
  workers s !! w = Some (Thread (Running t) j) → t ∈ running s.
Proof. intros Hw. by eapply elem_of_omap_lookup. Qed.

Lemma claimed_lookup s w t j :
  workers s !! w = Some (Thread (Claimed t) j) → t ∈ claimed s.
Proof. intros Hw. by eapply elem_of_omap_lookup. Qed.

Lemma accounted_running tr s t :
  accounted tr s → t ∈ running s → (t ∉ finished tr) ∧ t < length (heap s).
Proof.
  intros Hacc Ht. split.
  - apply accounted_NoDup, NoDup_app in Hacc as (_ & Hdisj & _).
    intros Hf. apply (Hdisj _ Hf). set_solver.
  - eapply accounted_lt; [done|]. set_solver.
Qed.

Lemma accounted_finished tr s t :
  accounted tr s → t ∈ finished tr → t < length (heap s).
Proof. intros Hacc Ht. eapply accounted_lt; [done|]. set_solver. Qed.

Lemma run_task_pending t s g :
  heap s !! t = Some (PackagedTask g None) →
  run_task t s = set_heap (<[t := PackagedTask g (Some (g ()))]> (heap s)) s.
Proof. intros Ht. unfold run_task, invoke. by rewrite Ht. Qed.

(** A transition leaves the packaged tasks alone, or is line 41 for a
    new one, or is a worker calling the one it holds. *)
Lemma Step_heap_cases l s s' :
  Step l s s' →
  (heap s' = heap s ∧ cerr s' = cerr s ∧
     finish_of l = None ∧ ∀ f t, l ≠ LEnqueue f t) ∨
  (∃ f, l = LEnqueue f (length (heap s)) ∧
     heap s' = heap s ++ [PackagedTask f None] ∧ cerr s' = cerr s) ∨
  (∃ w t j, l = LFinish w t ∧
     workers s !! w = Some (Thread (Running t) j) ∧
     heap s' = heap (run_task t s) ∧ cerr s' = cerr (run_task t s)).
Proof.
  destruct 1; simpl; try (by left); [right; left|right; right]; eauto 10.
Qed.

Lemma reach_fulfilment n tr s : reach n tr s → fulfilment tr s.
Proof.
  revert tr s. apply reach_ind.
  { split; simpl; try done. by intros f t ?%elem_of_nil. }
  intros tr s l s' Hr [Hb Hd Hp Hc] Hstep.
  pose proof (reach_accounted _ _ _ Hr) as Hacc.
  destruct (Step_heap_cases _ _ _ Hstep)
    as [(Hh & Hce & Hf & Hl)|[(f & -> & Hh & Hce)|(w & t & j & -> & Hw & Hh & Hce)]].
  - split; unfold finished; rewrite ?omap_snoc, ?Hf, ?app_nil_r, ?Hh, ?Hce; try done.
    intros f t [Hin|Heq%list_elem_of_singleton]%elem_of_app; [by eauto|].
    by destruct (Hl f t).
  - split; unfold finished; rewrite ?omap_snoc, ?app_nil_r, ?Hh, ?Hce; simpl;
      rewrite ?app_nil_r; try done.
    + intros f' t [Hin|Heq%list_elem_of_singleton]%elem_of_app.
      * specialize (Hb _ _ Hin).
        destruct (heap s !! t) as [pt|] eqn:Ht; [|done].
        by rewrite (lookup_app_l_Some _ _ _ _ Ht).
      * simplify_eq. by rewrite list_lookup_middle.
    + intros t pt [[_ Ht]|[-> <-]]%lookup_snoc_Some Hfin; [by eauto|].
      apply (accounted_finished _ _ _ Hacc) in Hfin. lia.
    + intros t pt [[_ Ht]|[-> <-]]%lookup_snoc_Some Hfin; by eauto.
  - pose proof (running_lookup _ _ _ _ Hw) as Hrun.
    destruct (accounted_running _ _ _ Hacc Hrun) as [Hnf Hlt].
    destruct (lookup_lt_is_Some_2 _ _ Hlt) as [[g o] Ht].
    pose proof (Hp _ _ Ht Hnf) as Ho. simpl in Ho. subst o.
    rewrite (run_task_pending _ _ _ Ht) in Hh, Hce. simpl in Hh, Hce.
    split; unfold finished; rewrite ?omap_snoc, ?Hh, ?Hce; simpl; try done.
    + intros f t' [Hin|Heq%list_elem_of_singleton]%elem_of_app; [|done].
      specialize (Hb _ _ Hin).
      destruct (decide (t = t')) as [<-|Hne].
      * rewrite list_lookup_insert_eq by done. by rewrite Ht in Hb.
      * by rewrite list_lookup_insert_ne.
    + intros t' pt Ht' Hfin.
      destruct (decide (t = t')) as [<-|Hne].
      * rewrite list_lookup_insert_eq in Ht' by done. by simplify_eq.
      * rewrite list_lookup_insert_ne in Ht' by done.
        apply (Hd t'); [done|].
        apply elem_of_app in Hfin as [|?%list_elem_of_singleton]; [done|congruence].
    + intros t' pt Ht' Hfin.
      destruct (decide (t = t')) as [<-|Hne]; [set_solver|].
      rewrite list_lookup_insert_ne in Ht' by done.
      apply (Hp t'); [done|]. set_solver.
Qed.

End Slots.

(** * The submission protocol *)

Section Submission.
Context {T : Type}.
Implicit Types (s : state T) (f : callable T) (l : label T) (tr : list (label T)).

(** C1.  Once the destructor has been entered ([LStop] has happened)
    [enqueue] throws [runtime_error "enqueue on stopped ThreadPool"] to
    its caller: the call yields an exception and no future, and the
    pool is as it was.  Before that, [enqueue] returns a valid future,
    for a new packaged task that holds the callable and is at the back
    of the queue. *)
Theorem enqueue_stopped_or_running n tr s f :
  reach n tr s →
  (LStop ∈ tr →
     enqueue f s = (Threw (runtime_error "enqueue on stopped ThreadPool"), s)) ∧
  (LStop ∉ tr →
     ∃ fut s', enqueue f s = (Returned fut, s') ∧
       valid fut = true ∧
       fstate fut = Some (length (heap s)) ∧
       tasks s' = tasks s ++ [length (heap s)] ∧
       heap s' !! length (heap s) = Some (PackagedTask f None)).
Proof.
  intros Hr. destruct (reach_stop _ _ _ Hr) as [Hs _]. split.
  - intros Hin. apply enqueue_stopped. by apply Hs.
  - intros Hnin. assert (stop s = false) as Hf.
    { destruct (stop s); [|done]. destruct Hnin. by apply Hs. }
    rewrite (enqueue_running _ _ Hf). eexists _, _. split; [done|].
    repeat split; simpl. by rewrite list_lookup_middle.
Qed.

(** C10.  A submission made while [stop] is set is rejected as a whole:
    the caller gets the exception, the queue and the packaged tasks are
    what they were (the task made at line 41 is gone again), the pool
    goes on as if the call had not been made, and no future comes back. *)
Theorem rejected_enqueue_atomic f s :
  stop s = true →
  enqueue f s = (Threw (runtime_error "enqueue on stopped ThreadPool"), s) ∧
  tasks (enqueue f s).2 = tasks s ∧
  heap (enqueue f s).2 = heap s ∧
  (∀ tr, exec (LReject f :: tr) s = exec tr s) ∧
  (∀ t, step (LEnqueue f t) s = None).
Proof.
  intros Hs. pose proof (enqueue_stopped f s Hs) as He.
  rewrite He. repeat split; simpl; by rewrite He.
Qed.

End Submission.

Lemma enqueue_stopped_or_running_witness :
  (∃ fut s', enqueue (square 3) (ThreadPool 2) = (Returned fut, s') ∧
     valid fut = true ∧ fstate fut = Some 0 ∧ tasks s' = [0] ∧
     heap s' !! 0 = Some (PackagedTask (square 3) None)) ∧
  ∃ s, reach 2 [LStop] s ∧
    enqueue (square 3) s =
      (Threw (runtime_error "enqueue on stopped ThreadPool"), s).
Proof.
  split.
  - apply (enqueue_stopped_or_running 2 [] (ThreadPool 2) (square 3));
      [reflexivity|]. by intros ?%elem_of_nil.
  - eexists. split; [reflexivity|].
    apply (enqueue_stopped_or_running 2 [LStop]); [reflexivity|]. by left.
Defined.

Lemma rejected_enqueue_atomic_witness :
  ∃ s, reach 2 [LEnqueue (square 3) 0; LStop] s ∧
    stop s = true ∧
    enqueue (square 4) s =
      (Threw (runtime_error "enqueue on stopped ThreadPool"), s) ∧
    tasks (enqueue (square 4) s).2 = [0].
Proof.
  eexists. split; [reflexivity|]. split; [reflexivity|].
  split; [|reflexivity].
  eapply proj1, (rejected_enqueue_atomic (square 4)). reflexivity.
Defined.

(** * Construction *)

(** C4, as the code has it.  The constructor starts exactly [threads]
    workers (the creation of a thread is taken to succeed), each one
    ready at the head of its loop, and leaves [stop] unset and the queue
    empty; it takes [threads] as given.  The guard
    against a hint of zero is the caller's: [main] passes the hint when
    it is positive and 4 otherwise, so the pool that [main] builds has
    at least one worker. *)
Theorem ThreadPool_spawns_threads {T : Type} (threads n : nat) :
  workers (ThreadPool (T:=T) threads) = replicate threads (Thread Ready true) ∧
  length (workers (ThreadPool (T:=T) threads)) = threads ∧
  stop (ThreadPool (T:=T) threads) = false ∧
  tasks (ThreadPool (T:=T) threads) = [] ∧
  main_threads 0 = 4 ∧
  main_threads (S n) = S n ∧
  1 ≤ length (workers (ThreadPool (T:=T) (main_threads n))).
Proof.
  repeat split; simpl; rewrite ?length_replicate; try done.
  unfold main_threads. case_bool_decide; lia.
Qed.

(** C4 fails as stated: given 0 the constructor returns a pool without
    any worker.  That pool takes a submission like any other; nobody
    ever enters the task; and when the pool is destroyed the packaged
    task goes with the queue, so that [get] on the future throws
    [broken_promise]. *)
Lemma ThreadPool_zero_no_worker :
  workers (ThreadPool (T:=Z) 0) = [] ∧
  ¬ (1 ≤ length (workers (ThreadPool (T:=Z) 0))) ∧
  (enqueue (square 3) (ThreadPool 0)).1 = Returned (Future (Some 0)) ∧
  ∃ s, reach 0 run_no_worker s ∧
    dtor s = DDone ∧
    started run_no_worker = [] ∧
    get (Future (Some 0)) (destroy_members s)
    = Got (Threw (future_error broken_promise)) (Future None).
Proof.
  split; [done|]. split; [simpl; lia|]. split; [done|].
  eexists. split; [vm_compute; reflexivity|]. repeat split.
Qed.

(** * The stop flag *)

Section StopFlag.
Context {T : Type}.
Implicit Types (s : state T) (f : callable T) (l : label T) (tr : list (label T)).

Lemma history_snoc tr l s0 s s' :
  exec tr s0 = Some s → step l s = Some s' →
  history (tr ++ [l]) s0 = history tr s0 ++ [s'].
Proof.
  revert s0. induction tr as [|a tr IH]; intros s0 He Hl; simpl in *.
  - injection He as ->. by rewrite Hl.
  - destruct (step a s0) as [s1|]; [|done]. by rewrite (IH s1).
Qed.

Lemma replicate_snoc {A} k (x : A) : replicate k x ++ [x] = replicate (S k) x.
Proof. induction k as [|k IH]; simpl; [done|]. by rewrite IH. Qed.

(** Along an execution [stop] is [false] for a while, from the
    construction on, and then [true] for good. *)
Lemma reach_history n tr s :
  reach n tr s →
  ∃ k m, stop <$> history tr (ThreadPool n)
           = replicate (S k) false ++ replicate m true ∧
         (stop s = true ↔ 0 < m).
Proof.
  revert tr s. apply reach_ind.
  { exists 0, 0. split; [done|]. simpl. split; [done|lia]. }
  intros tr s l s' Hr (k & m & Hh & Hm) Hstep.
  rewrite (history_snoc _ _ _ _ _ Hr (Step_step _ _ _ Hstep)), fmap_app, Hh.
  change (stop <$> [s']) with [stop s']. destruct (stop s') eqn:Hs'.
  - exists k, (S m). split; [|split; [lia|done]].
    by rewrite <-app_assoc, replicate_snoc.
  - destruct (stop s) eqn:Hs.
    { by rewrite (Step_stop_mono _ _ _ Hstep Hs) in Hs'. }
    destruct m as [|m]; [|destruct Hm as [_ Hm]; discriminate Hm; lia].
    exists (S k), 0. split; [|split; [done|lia]].
    by rewrite !app_nil_r, replicate_snoc.
Qed.

(** C9.  [stop] is [false] at construction.  Along every execution its
    values are [false] one or more times and then [true] from some
    point on, so it changes at most once and never back; it has changed
    exactly when the destructor has been entered, hence once by the
    time the destructor returns.  The one transition that changes it is
    line 58 of the destructor. *)
Theorem stop_set_once n tr s :
  reach n tr s →
  stop (ThreadPool (T:=T) n) = false ∧
  (∃ k m, stop <$> history tr (ThreadPool n)
            = replicate (S k) false ++ replicate m true ∧
          (0 < m ↔ LStop ∈ tr) ∧
          (dtor s = DDone → 0 < m)) ∧
  (∀ l s', step l s = Some s' → stop s' ≠ stop s →
     l = LStop ∧ stop s = false ∧ stop s' = true).
Proof.
  intros Hr. split; [done|]. split.
  - destruct (reach_history _ _ _ Hr) as (k & m & Hh & Hm).
    destruct (reach_stop _ _ _ Hr) as [Hs Hd].
    exists k, m. split; [done|]. split; [by rewrite <-Hm|].
    intros Hdone. apply Hm. destruct (stop s); [done|].
    destruct Hd as [Hd _]. by rewrite Hd in Hdone.
  - intros l s' Hstep%step_Step Hne.
    destruct (stop s) eqn:Hs.
    + by rewrite (Step_stop_mono _ _ _ Hstep Hs) in Hne.
    + destruct (stop s') eqn:Hs'; [|done].
      by rewrite (Step_stop_set _ _ _ Hstep Hs Hs').
Qed.

End StopFlag.

Lemma stop_set_once_witness :
  ∃ s, reach 1 run_destroyed s ∧
    ∃ k m, stop <$> history run_destroyed (ThreadPool 1)
             = replicate (S k) false ++ replicate m true ∧
           (0 < m ↔ LStop ∈ run_destroyed) ∧
           (dtor s = DDone → 0 < m).
Proof.
  eexists.
  match goal with
  | |- ?R ∧ _ => assert R as Hr by (vm_compute; reflexivity)
  end.
  split; [exact Hr|].
  eapply proj1, proj2, (stop_set_once 1 run_destroyed). exact Hr.
Defined.

(** * The queue discipline *)

Section Queue.
Context {T : Type}.
Implicit Types (s : state T) (f : callable T) (l : label T) (tr : list (label T)).

Lemma before_prefix {A} (a b : A) (l m : list A) :
  NoDup (l ++ m) → before a b (l ++ m) → b ∈ l → before a b l.
Proof.
  intros Hnd (i & j & Hij & Hi & Hj) [j' Hj']%list_elem_of_lookup_1.
  assert (j = j') as ->.
  { eapply NoDup_lookup; [done..|]. by apply lookup_app_l_Some. }
  pose proof (lookup_lt_Some _ _ _ Hj') as Hlt.
  exists i, j'. split; [done|]. split; [|done].
  by rewrite lookup_app_l in Hi by lia.
Qed.

Lemma singleton_lookup {A} (l : list A) w x :
  length l = 1 → l !! w = Some x → w = 0 ∧ l = [x].
Proof.
  destruct l as [|y [|z l]]; intros Hl Hw; simplify_eq/=.
  destruct w; by simplify_eq/=.
Qed.

(** With one worker the tasks it holds change in step with the
    execution, in order. *)
Lemma Step_claimed_single l s s' :
  Step l s s' → length (workers s) = 1 →
  option_list (start_of l) ++ claimed s' = claimed s ++ option_list (deq_of l).
Proof.
  destruct 1; intros Hlen; unfold claimed; simpl;
    rewrite ?workers_run_task, ?claimed_wake, ?app_nil_r; try done;
    match goal with
    | H : workers _ !! _ = Some _ |- _ =>
        destruct (singleton_lookup _ _ _ Hlen H) as [-> Hws]; by rewrite Hws
    end.
Qed.

Lemma Step_running_single l s s' :
  Step l s s' → length (workers s) = 1 →
  option_list (finish_of l) ++ running s' = running s ++ option_list (start_of l).
Proof.
  destruct 1; intros Hlen; unfold running; simpl;
    rewrite ?workers_run_task, ?running_wake, ?app_nil_r; try done;
    match goal with
    | H : workers _ !! _ = Some _ |- _ =>
        destruct (singleton_lookup _ _ _ Hlen H) as [-> Hws]; by rewrite Hws
    end.
Qed.

Lemma reach_single tr s :
  reach 1 tr s →
  started tr ++ claimed s = dequeued tr ∧ finished tr ++ running s = started tr.
Proof.
  revert tr s. apply reach_ind; [done|].
  intros tr s l s' Hr [Hc Hf] Hstep.
  pose proof (reach_workers _ _ _ Hr) as Hlen.
  unfold started, dequeued, finished in *. rewrite !omap_snoc. split.
  - by rewrite <-app_assoc, (Step_claimed_single _ _ _ Hstep Hlen), app_assoc, Hc.
  - by rewrite <-app_assoc, (Step_running_single _ _ _ Hstep Hlen), app_assoc, Hf.
Qed.

Lemma reach_enqueued_NoDup n tr s : reach n tr s → NoDup (dequeued tr ++ tasks s).
Proof.
  intros [He Hq _ _]%reach_accounted. rewrite Hq, He. apply NoDup_seq.
Qed.

Lemma reach_started_NoDup n tr s : reach n tr s → NoDup (started tr).
Proof.
  intros Hr. pose proof (reach_enqueued_NoDup _ _ _ Hr) as Hnd.
  apply reach_accounted in Hr as [_ _ Hc _].
  apply NoDup_app in Hnd as (Hdeq & _ & _). rewrite <-Hc in Hdeq.
  by apply NoDup_app in Hdeq as (? & _ & _).
Qed.

(** Two workers can finish two tasks in either order. *)
Lemma finish_out_of_order f :
  ∃ tr s, reach 2 tr s ∧ enqueued tr = [0; 1] ∧ started tr = [0; 1] ∧
          finished tr = [1; 0].
Proof.
  exists [LEnqueue f 0; LEnqueue f 1; LDequeue 0 0; LDequeue 1 1;
          LStart 0 0; LStart 1 1; LFinish 1 1; LFinish 0 0].
  eexists. split; [vm_compute; reflexivity|done].
Qed.

(** C7.  The tasks taken off the queue, followed by the queue from
    front to back, are the tasks in the order in which they were
    queued.  So of two tasks the one queued first is the one taken
    first.  In a pool of one worker the tasks are entered in the order
    in which they were taken, hence in the order in which they were
    queued.  Nothing of the kind holds for the order in which tasks
    finish: with two workers, of two tasks queued and entered in one
    order the second can finish first. *)
Theorem fifo_dequeue n tr s :
  reach n tr s →
  enqueued tr = dequeued tr ++ tasks s ∧
  (∀ a b, before a b (enqueued tr) → b ∈ dequeued tr → before a b (dequeued tr)) ∧
  (n = 1 →
     (∃ q, dequeued tr = started tr ++ q) ∧
     ∀ a b, before a b (enqueued tr) → b ∈ started tr → before a b (started tr)) ∧
  (∀ f, ∃ tr' s', reach 2 tr' s' ∧ enqueued tr' = [0; 1] ∧
          started tr' = [0; 1] ∧ finished tr' = [1; 0]).
Proof.
  intros Hr. pose proof (reach_accounted _ _ _ Hr) as [He Hq Hc Hf].
  pose proof (reach_enqueued_NoDup _ _ _ Hr) as Hnd.
  split; [done|]. split; [|split].
  - intros a b Hab Hb. rewrite <-Hq in Hab. by eapply before_prefix.
  - intros ->. destruct (reach_single _ _ Hr) as [Hc1 _].
    split; [by exists (claimed s)|].
    intros a b Hab Hb. rewrite <-Hq, <-Hc1, <-app_assoc in Hab.
    eapply before_prefix; [|done..]. by rewrite app_assoc, Hc1.
  - apply finish_out_of_order.
Qed.

(** C8.  No task is taken off the queue twice or entered twice, whoever
    the workers; at every moment the queue and the workers' hands hold
    each task at most once, so a task is in the queue or with one
    worker, never both and never with two; and a task that has been
    queued and not yet taken is in the queue. *)
Theorem at_most_once n tr s :
  reach n tr s →
  NoDup (dequeued tr) ∧
  NoDup (started tr) ∧
  (∀ w1 w2 t, LDequeue w1 t ∈ tr → LDequeue w2 t ∈ tr → w1 = w2) ∧
  (∀ w1 w2 t, LStart w1 t ∈ tr → LStart w2 t ∈ tr → w1 = w2) ∧
  NoDup (tasks s ++ claimed s ++ running s) ∧
  (∀ w1 w2 t, holds s w1 t → holds s w2 t → w1 = w2) ∧
  (∀ w t, holds s w t → t ∉ tasks s) ∧
  (∀ t, t ∈ enqueued tr → t ∉ dequeued tr → t ∈ tasks s).
Proof.
  intros Hr. pose proof (reach_accounted _ _ _ Hr) as Hacc.
  pose proof (accounted_NoDup _ _ Hacc) as Hall.
  destruct Hacc as [He Hq Hc Hf].
  pose proof (reach_enqueued_NoDup _ _ _ Hr) as Hnd.
  assert (NoDup (dequeued tr)) as Hdeq by by apply NoDup_app in Hnd as (? & _ & _).
  pose proof (reach_started_NoDup _ _ _ Hr) as Hst.
  apply NoDup_app in Hall as (_ & _ & Hheld).
  assert (NoDup (tasks s ++ claimed s ++ running s)) as Hnow.
  { by rewrite (Permutation_app_comm (tasks s)),
      (Permutation_app_comm (claimed s)), <-app_assoc. }
  split; [done|]. split; [done|]. split; [|split; [|split; [done|split; [|split]]]].
  - intros w1 w2 t H1 H2.
    by pose proof (omap_NoDup_elem deq_of tr _ _ t Hdeq H1 H2 eq_refl eq_refl)
      as [= ->].
  - intros w1 w2 t H1 H2.
    by pose proof (omap_NoDup_elem start_of tr _ _ t Hst H1 H2 eq_refl eq_refl)
      as [= ->].
  - apply NoDup_app in Hnow as (_ & _ & Hcr).
    pose proof Hcr as (Hcl & Hdisj & Hrun)%NoDup_app.
    intros w1 w2 t [H1|H1] [H2|H2];
      apply at_pc_Some in H1 as [j1 H1]; apply at_pc_Some in H2 as [j2 H2].
    + by eapply (omap_NoDup_lookup claimed_of).
    + destruct (Hdisj t); [by eapply claimed_lookup|by eapply running_lookup].
    + destruct (Hdisj t); [by eapply claimed_lookup|by eapply running_lookup].
    + by eapply (omap_NoDup_lookup running_of).
  - apply NoDup_app in Hnow as (_ & Hdisj & _).
    intros w t [H1|H1] Hin; apply at_pc_Some in H1 as [j1 H1];
      apply (Hdisj _ Hin), elem_of_app;
      [left; by eapply claimed_lookup|right; by eapply running_lookup].
  - intros t Ht Hnt. rewrite <-Hq in Ht.
    by apply elem_of_app in Ht as [?|?].
Qed.

End Queue.

Lemma fifo_dequeue_witness :
  ∃ s, reach 1 run_in_order s ∧ before 0 1 (started run_in_order).
Proof.
  eexists.
  match goal with
  | |- ?R ∧ _ => assert R as Hr by (vm_compute; reflexivity)
  end.
  split; [exact Hr|].
  eapply (fifo_dequeue 1 run_in_order); [exact Hr|reflexivity| |].
  - exists 0, 1. split; [lia|]. split; reflexivity.
  - right. left.
Defined.

Lemma at_most_once_witness :
  ∃ s, reach 2 run_two_hands s ∧
    NoDup (tasks s ++ claimed s ++ running s) ∧
    ∀ w1 w2 t, holds s w1 t → holds s w2 t → w1 = w2.
Proof.
  eexists.
  match goal with
  | |- ?R ∧ _ => assert R as Hr by (vm_compute; reflexivity)
  end.
  split; [exact Hr|].
  split; eapply (at_most_once 2 run_two_hands); exact Hr.
Defined.

(** * Shutdown comes to an end *)

Section Progress.
Context {T : Type}.
Implicit Types (s : state T) (f : callable T) (l : label T) (tr : list (label T)).

Lemma sum_alter {A} (g : A → nat) (h : A → A) (ws : list A) i x :
  ws !! i = Some x →
  sum_list_with g (alter h i ws) + g x = sum_list_with g ws + g (h x).
Proof.
  revert i. induction ws as [|a ws IH]; intros [|i] Hi; simplify_eq/=.
  - lia.
  - specialize (IH _ Hi). lia.
Qed.

Lemma sum_wake (ws : list thread) :
  sum_list_with (λ th, weight (pc th)) (wake <$> ws)
  ≤ sum_list_with (λ th, weight (pc th)) ws.
Proof.
  induction ws as [|[p j] ws IH]; csimpl; [done|].
  assert (weight (pc (wake (Thread p j))) ≤ weight p) by (destruct p; simpl; lia).
  lia.
Qed.

(** With [stop] set every transition of a worker or of the destructor
    brings the pool nearer to the end. *)
Lemma Step_measure l s s' :
  Step l s s' → stop s = true → internal l = true → measure s' < measure s.
Proof.
  destruct 1; intros Hs Hi; try done; try congruence; unfold measure; simpl;
    rewrite ?tasks_run_task, ?workers_run_task, ?dtor_run_task,
      ?length_alter, ?length_fmap, ?length_insert, ?list_insert_alter;
    try match goal with
      | H : workers s !! ?w = Some ?x |- context [alter ?h ?w (workers s)] =>
          pose proof (sum_alter (λ th, weight (pc th)) h _ _ _ H);
          pose proof (lookup_lt_Some _ _ _ H)
      end;
    repeat match goal with
      | H : tasks s = _ |- _ => rewrite H
      | H : dtor s = _ |- _ => rewrite H
      end; simpl in *; try lia.
  - pose proof (sum_wake (workers s)). lia.
  - match goal with
    | H : workers s !! _ = Some _ |- _ => apply lookup_lt_Some in H
    end. lia.
Qed.

Lemma exec_measure tr : ∀ s s',
  exec tr s = Some s' → stop s = true → forallb internal tr = true →
  stop s' = true ∧ length tr + measure s' ≤ measure s.
Proof.
  induction tr as [|l tr IH]; intros s s' He Hs Hi; simpl in *.
  - injection He as <-. split; [done|lia].
  - apply andb_true_iff in Hi as [Hl Hi].
    destruct (step l s) as [s1|] eqn:Hstep; [|done].
    apply step_Step in Hstep.
    pose proof (Step_stop_mono _ _ _ Hstep Hs) as Hs1.
    pose proof (Step_measure _ _ _ Hstep Hs Hl).
    destruct (IH _ _ He Hs1 Hi). split; [done|lia].
Qed.

Lemma own_internal l : own l = true → internal l = true.
Proof. by destruct l. Qed.

(** Until the destructor has returned there is always a worker or the
    destructor itself that can move, and by itself: [notify_all] is the
    destructor's own move, and after it no worker is asleep, so the
    destructor waits in [join] only for a worker that is on its way. *)
Lemma shutdown_progress n tr s :
  reach n tr s → stop s = true → dtor s ≠ DDone →
  ∃ l s', Step l s s' ∧ own l = true.
Proof.
  intros Hr Hs Hd.
  destruct (reach_stop _ _ _ Hr) as [_ Hnone].
  destruct (dtor s) as [| |i|] eqn:Hdt; try done.
  - destruct Hnone as [_ Hnone]. by rewrite Hnone in Hs.
  - eexists LNotifyAll, _. split; [by constructor|done].
  - destruct (reach_join _ _ _ Hr _ Hdt) as [Hi _].
    destruct (decide (i = length (workers s))) as [->|Hne].
    { eexists LReturn, _. split; [by constructor|done]. }
    destruct (lookup_lt_is_Some_2 (workers s) i) as [[p [|]] Hw]; [lia| |].
    + destruct p as [| |t|t|].
      * destruct (tasks s) as [|t q] eqn:Hq.
        -- eexists (LExit i), _. split; [by econstructor|done].
        -- eexists (LDequeue i t), _. split; [by econstructor|done].
      * by destruct (reach_awake _ _ _ Hr ltac:(congruence)
                       ltac:(congruence) _ _ Hw).
      * eexists (LStart i t), _. split; [by econstructor|done].
      * eexists (LFinish i t), _. split; [by econstructor|done].
      * eexists (LJoin i), _. split; [by constructor|done].
    + eexists (LJoin i), _. split; [by econstructor|done].
Qed.

(** So a shutdown that has begun can always be carried to its end. *)
Lemma shutdown_completes n : ∀ k tr s,
  measure s < k → reach n tr s → stop s = true →
  ∃ tr' s', exec tr' s = Some s' ∧ forallb internal tr' = true ∧
            reach n (tr ++ tr') s' ∧ dtor s' = DDone.
Proof.
  induction k as [|k IH]; intros tr s Hk Hr Hs; [lia|].
  assert (dtor s = DDone ∨ dtor s ≠ DDone) as [Hd|Hd]
    by (destruct (dtor s); auto).
  - exists [], s. by rewrite app_nil_r.
  - destruct (shutdown_progress _ _ _ Hr Hs Hd)
      as (l & s1 & Hstep & Hl%own_internal).
    pose proof (Step_measure _ _ _ Hstep Hs Hl).
    destruct (IH (tr ++ [l]) s1) as (tr' & s' & He & Hi & Hr' & Hd');
      [lia|by eapply reach_snoc|by eapply Step_stop_mono|].
    exists (l :: tr'), s'. simpl.
    rewrite (Step_step _ _ _ Hstep), Hl. rewrite <-app_assoc in Hr'. done.
Qed.

End Progress.

(** * Results and failures *)

Section Results.
Context {T : Type}.
Implicit Types (s : state T) (f : callable T) (l : label T) (tr : list (label T)).

Lemma get_finished n tr s f t :
  reach n tr s → LEnqueue f t ∈ tr → t ∈ finished tr →
  get (Future (Some t)) s = Got (f ()) (Future None).
Proof.
  intros [Hb Hd _ _]%reach_fulfilment Hin Hfin.
  specialize (Hb _ _ Hin). unfold get; simpl.
  destruct (heap s !! t) as [[g o]|] eqn:Ht; simplify_eq/=.
  pose proof (Hd _ _ Ht Hfin) as Ho. simpl in Ho. by rewrite Ho.
Qed.

Lemma get_pending n tr s f t :
  reach n tr s → LEnqueue f t ∈ tr → t ∉ finished tr →
  get (Future (Some t)) s = Blocks.
Proof.
  intros [Hb _ Hp _]%reach_fulfilment Hin Hfin.
  specialize (Hb _ _ Hin). unfold get; simpl.
  destruct (heap s !! t) as [[g o]|] eqn:Ht; simplify_eq/=.
  pose proof (Hp _ _ Ht Hfin) as Ho. simpl in Ho. by rewrite Ho.
Qed.

(** The slots once the members are destroyed. *)
Lemma heap_destroy_members s t :
  heap (destroy_members s) !! t
  = (λ pt, if bool_decide (t ∈ tasks s) then abandon pt else pt) <$> heap s !! t.
Proof. unfold destroy_members; simpl. apply list_lookup_imap. Qed.

(** A finished task keeps its result when the pool goes. *)
Lemma get_destroyed_finished n tr s f t :
  reach n tr s → LEnqueue f t ∈ tr → t ∈ finished tr →
  get (Future (Some t)) (destroy_members s) = Got (f ()) (Future None).
Proof.
  intros [Hb Hd _ _]%reach_fulfilment Hin Hfin.
  specialize (Hb _ _ Hin). unfold get. cbn [fstate].
  rewrite heap_destroy_members.
  destruct (heap s !! t) as [[g o]|] eqn:Ht; simplify_eq/=.
  pose proof (Hd _ _ Ht Hfin) as Ho. simpl in Ho. subst o.
  unfold abandon; simpl. by case_bool_decide.
Qed.

Lemma omap_all_None {A B} (g : A → option B) (l : list A) :
  (∀ i x, l !! i = Some x → g x = None) → omap g l = [].
Proof.
  induction l as [|a l IH]; intros Hl; simpl; [done|].
  rewrite (Hl 0 a eq_refl). apply IH. intros i x. apply (Hl (S i)).
Qed.

(** When every worker of a pool that has one has returned, every task
    that was queued has been finished. *)
Lemma all_exited_finished n tr s :
  reach n tr s → 0 < n →
  (∀ w p, at_pc w s = Some p → p = Exited) →
  ∀ f t, LEnqueue f t ∈ tr → t ∈ finished tr.
Proof.
  intros Hr Hn Hall f t Hin.
  pose proof (reach_accounted _ _ _ Hr) as Hacc.
  pose proof (accounted_perm _ _ Hacc) as Hperm.
  assert (∀ i th, workers s !! i = Some th → pc th = Exited) as Hall'.
  { intros i [p j] Hi. apply (Hall i). by rewrite (at_pc_lookup _ _ _ _ Hi). }
  assert (running s = []) as Hrun.
  { apply omap_all_None. intros i th Hi. unfold running_of.
    by rewrite (Hall' _ _ Hi). }
  assert (claimed s = []) as Hcl.
  { apply omap_all_None. intros i th Hi. unfold claimed_of.
    by rewrite (Hall' _ _ Hi). }
  assert (tasks s = []) as Hq.
  { destruct (lookup_lt_is_Some_2 (workers s) 0) as [th Hth].
    { rewrite (reach_workers _ _ _ Hr). lia. }
    by destruct (reach_exited _ _ _ Hr _ _ Hth (Hall' _ _ Hth)). }
  rewrite Hrun, Hcl, Hq, !app_nil_r in Hperm. rewrite Hperm.
  apply reach_fulfilment in Hr as [Hb _ _ _]. specialize (Hb _ _ Hin).
  apply elem_of_seq. split; [lia|]. simpl.
  apply lookup_lt_is_Some. destruct (heap s !! t); [eauto|done].
Qed.

(** More generally, when the queue is empty and no worker holds a
    task, every task that was queued has been finished. *)
Lemma idle_finished n tr s :
  reach n tr s → tasks s = [] → claimed s = [] → running s = [] →
  ∀ f t, LEnqueue f t ∈ tr → t ∈ finished tr.
Proof.
  intros Hr Hq Hcl Hrun f t Hin.
  pose proof (reach_accounted _ _ _ Hr) as Hacc.
  pose proof (accounted_perm _ _ Hacc) as Hperm.
  rewrite Hrun, Hcl, Hq, !app_nil_r in Hperm. rewrite Hperm.
  apply reach_fulfilment in Hr as [Hb _ _ _]. specialize (Hb _ _ Hin).
  apply elem_of_seq. split; [lia|]. simpl.
  apply lookup_lt_is_Some. destruct (heap s !! t); [eauto|done].
Qed.

Lemma done_all_exited n tr s :
  reach n tr s → dtor s = DDone → ∀ w p, at_pc w s = Some p → p = Exited.
Proof.
  intros Hr Hd w p [j Hw]%at_pc_Some.
  by pose proof (reach_done _ _ _ Hr Hd _ _ Hw) as [= -> _].
Qed.

(** When the destructor's body is over the workers hold nothing, so a
    task that has not been finished is still in the queue. *)
Lemma done_pending_queued n tr s f t :
  reach n tr s → dtor s = DDone → LEnqueue f t ∈ tr → t ∉ finished tr →
  t ∈ tasks s.
Proof.
  intros Hr Hd Hin Hfin.
  pose proof (reach_accounted _ _ _ Hr) as Hacc.
  pose proof (accounted_perm _ _ Hacc) as Hperm.
  pose proof (reach_done _ _ _ Hr Hd) as Hall.
  assert (running s = []) as Hrun.
  { apply omap_all_None. intros i th Hi. by rewrite (Hall _ _ Hi). }
  assert (claimed s = []) as Hcl.
  { apply omap_all_None. intros i th Hi. by rewrite (Hall _ _ Hi). }
  rewrite Hrun, Hcl in Hperm. simpl in Hperm.
  assert (t ∈ finished tr ++ tasks s) as [?|?]%elem_of_app; [|done..].
  rewrite Hperm.
  apply reach_fulfilment in Hr as [Hb _ _ _]. specialize (Hb _ _ Hin).
  apply elem_of_seq. split; [lia|]. simpl.
  apply lookup_lt_is_Some. destruct (heap s !! t); [eauto|done].
Qed.

(** Its packaged task goes with the queue, and the future it left
    behind becomes ready with [broken_promise]. *)
Lemma get_destroyed_pending n tr s f t :
  reach n tr s → dtor s = DDone → LEnqueue f t ∈ tr → t ∉ finished tr →
  get (Future (Some t)) (destroy_members s)
  = Got (Threw (future_error broken_promise)) (Future None).
Proof.
  intros Hr Hd Hin Hfin.
  pose proof (done_pending_queued _ _ _ _ _ Hr Hd Hin Hfin) as Hq.
  apply reach_fulfilment in Hr as [Hb _ Hp _].
  specialize (Hb _ _ Hin). unfold get. cbn [fstate].
  rewrite heap_destroy_members.
  destruct (heap s !! t) as [[g o]|] eqn:Ht; simplify_eq/=.
  pose proof (Hp _ _ Ht Hfin) as Ho. simpl in Ho. subst o.
  rewrite bool_decide_eq_true_2 by done. done.
Qed.

(** C2, as the code has it.  A worker returns only with [stop] set and
    the queue empty, so whenever some worker has returned every task
    that was queued has been taken by a worker.  When every worker of a
    pool that has at least one has returned, as is the case when the
    destructor returns, every task that was queued has been run to its
    end, and its future gives what its callable gave, also once the
    members of the pool are destroyed: no future is left with a broken
    promise.  And a shutdown that has begun gets there: until the
    destructor has returned some worker or the destructor can make a
    move of its own, which is not a wake-up; and all their moves, the
    wake-ups included, are no more than [measure s]. *)
Theorem shutdown_drains n tr s :
  reach n tr s →
  (∀ w, at_pc w s = Some Exited →
     stop s = true ∧ tasks s = [] ∧ ∀ t, t ∈ enqueued tr → t ∈ dequeued tr) ∧
  (0 < n → (∀ w p, at_pc w s = Some p → p = Exited) →
     ∀ f t, LEnqueue f t ∈ tr →
       t ∈ finished tr ∧ get (Future (Some t)) s = Got (f ()) (Future None)) ∧
  (dtor s = DDone → ∀ w p, at_pc w s = Some p → p = Exited) ∧
  (0 < n → dtor s = DDone →
     ∀ f t, LEnqueue f t ∈ tr →
       get (Future (Some t)) (destroy_members s) = Got (f ()) (Future None)) ∧
  (stop s = true → dtor s ≠ DDone →
     ∃ l s', step l s = Some s' ∧ own l = true) ∧
  (∀ tr' s', stop s = true → exec tr' s = Some s' →
     forallb internal tr' = true → length tr' ≤ measure s).
Proof.
  intros Hr. split; [|split; [|split; [|split; [|split]]]].
  - intros w [j Hw]%at_pc_Some.
    destruct (reach_exited _ _ _ Hr _ _ Hw eq_refl) as [Hs Hq].
    split; [done|]. split; [done|].
    apply reach_accounted in Hr as [_ Hacc _ _].
    by rewrite <-Hacc, Hq, app_nil_r.
  - intros Hn Hall f t Hin.
    assert (t ∈ finished tr) by by eapply all_exited_finished.
    split; [done|]. by eapply get_finished.
  - intros Hd. by eapply done_all_exited.
  - intros Hn Hd f t Hin. eapply get_destroyed_finished; [done..|].
    eapply all_exited_finished; [done..| |done]. by eapply done_all_exited.
  - intros Hs Hd.
    destruct (shutdown_progress _ _ _ Hr Hs Hd) as (l & s' & Hstep & Hl).
    exists l, s'. split; [by apply Step_step|done].
  - intros tr' s' Hs He Hi.
    destruct (exec_measure _ _ _ He Hs Hi). lia.
Qed.

(** C3, as the code has it.  On the future of a task that has been
    finished, [get] gives what the callable gave when the worker ran it;
    the task was entered once, and [get] does not touch the pool.  [get]
    leaves the future without a state, and on such a future [get] is
    undefined. *)
Theorem future_get_once n tr s f t :
  reach n tr s → LEnqueue f t ∈ tr → t ∈ finished tr →
  ∃ fut', get (Future (Some t)) s = Got (f ()) fut' ∧
    valid fut' = false ∧
    get fut' s = Undefined ∧
    t ∈ started tr ∧ NoDup (started tr).
Proof.
  intros Hr Hin Hfin. exists (Future None).
  split; [by eapply get_finished|]. split; [done|]. split; [done|].
  pose proof (reach_accounted _ _ _ Hr) as [_ _ _ Hf].
  split; [rewrite <-Hf; apply elem_of_app; by left|].
  by eapply reach_started_NoDup.
Qed.

End Results.

(** C2 fails as stated: one worker of two has returned while the task
    queued before the shutdown is with the other worker, not yet
    entered, and its future not ready. *)
Lemma worker_exits_before_task_runs :
  ∃ s, reach 2 run_early_exit s ∧
    at_pc 1 s = Some Exited ∧
    enqueued run_early_exit = [0] ∧
    started run_early_exit = [] ∧
    finished run_early_exit = [] ∧
    get (Future (Some 0)) s = Blocks.
Proof. eexists. split; [vm_compute; reflexivity|]. repeat split. Qed.

Lemma shutdown_drains_witness :
  ∃ s, reach 2 run_drained s ∧
    get (Future (Some 0)) s = Got (Returned 9%Z) (Future None).
Proof.
  eexists.
  match goal with
  | |- ?R ∧ _ => assert R as Hr by (vm_compute; reflexivity)
  end.
  split; [exact Hr|].
  destruct (shutdown_drains 2 run_drained _ Hr) as (_ & Hall & _).
  refine (proj2 (Hall _ _ (square 3) 0 _)).
  - lia.
  - intros [|[|w]] p; vm_compute; congruence.
  - by left.
Defined.

(** C3 fails as stated: the second [get] on the same future does not
    give the outcome again. *)
Lemma second_get_undefined :
  ∃ s fut', reach 1 run_one_task s ∧
    get (Future (Some 0)) s = Got (Returned 9%Z) fut' ∧
    get fut' s = Undefined ∧
    get fut' s ≠ Got (Returned 9%Z) fut'.
Proof.
  eexists _, _. split; [vm_compute; reflexivity|].
  split; [reflexivity|]. split; [reflexivity|]. discriminate.
Qed.

Lemma future_get_once_witness :
  ∃ s fut', reach 1 run_one_task s ∧
    get (Future (Some 0)) s = Got (Returned 9%Z) fut' ∧
    valid fut' = false ∧ get fut' s = Undefined.
Proof.
  assert (∃ s, reach 1 run_one_task s) as [s Hr]
    by (eexists; vm_compute; reflexivity).
  exists s.
  destruct (future_get_once 1 run_one_task s (square 3) 0 Hr)
    as (fut' & Hg & Hv & Hu & _).
  - by left.
  - by left.
  - exists fut'. split; [exact Hr|]. by split.
Defined.

(** * Shutdown *)

Section Shutdown.
Context {T : Type}.
Implicit Types (s : state T) (f : callable T) (l : label T) (tr : list (label T)).

(** When the destructor's body is over nothing moves any more.  The
    one call the pool can still receive is an [enqueue], which throws
    and leaves no trace. *)
Lemma Step_done n tr l s s' :
  reach n tr s → dtor s = DDone → Step l s s' → s' = s.
Proof.
  intros Hr Hd Hstep.
  pose proof (reach_done _ _ _ Hr Hd) as Hall.
  destruct (reach_stop _ _ _ Hr) as [_ [Hs _]].
  assert (stop s = true) as Hst.
  { destruct (stop s); [done|]. by rewrite Hs in Hd. }
  destruct Hstep; try done; try congruence;
    match goal with
    | H : workers s !! _ = Some _ |- _ => by pose proof (Hall _ _ H)
    end.
Qed.

(** C6, as the code has it.  Shutting down is what the destructor does,
    and only the destructor: no other transition changes [stop].  The
    destructor sets [stop]; after its [notify_all] no worker is asleep;
    it gets past [join] on a worker only when that worker has returned;
    and when its body is over every worker has returned and has been
    joined.  It runs once: it cannot be entered a second time, and the
    pool it has shut down does not change any more. *)
Theorem destructor_shuts_down n tr s :
  reach n tr s →
  (∀ l s', step l s = Some s' → l ≠ LStop → stop s' = stop s) ∧
  (∀ s', step LStop s = Some s' → stop s' = true ∧ dtor s = DNone) ∧
  (∀ s', step LNotifyAll s = Some s' → ∀ w, at_pc w s' ≠ Some Waiting) ∧
  (∀ i s', step (LJoin i) s = Some s' →
     at_pc i s = Some Exited ∧ workers s' !! i = Some (Thread Exited false)) ∧
  (dtor s = DDone →
     (∀ w th, workers s !! w = Some th → th = Thread Exited false) ∧
     stop s = true ∧
     step LStop s = None ∧
     ∀ l s', step l s = Some s' → s' = s).
Proof.
  intros Hr. split; [|split; [|split; [|split]]].
  - intros l s' Hstep%step_Step Hl.
    destruct (stop s) eqn:Hs; [by eapply Step_stop_mono|].
    destruct (stop s') eqn:Hs'; [|done].
    destruct Hl. by eapply Step_stop_set.
  - intros s' Hstep%step_Step.
    split; [by eapply Step_stop_LStop|by inversion Hstep].
  - intros s' Hstep%step_Step w Hw.
    apply at_pc_Some in Hw as [j Hw].
    eapply (reach_awake _ _ _ (reach_snoc _ _ _ _ _ Hr Hstep)); [..|done|done];
      by inversion Hstep.
  - intros i s' Hstep%step_Step. inversion Hstep; subst; simpl.
    + split; [by eapply at_pc_lookup|].
      apply list_lookup_insert_eq. by eapply lookup_lt_Some.
    + match goal with
      | H : workers s !! i = Some _ |- _ =>
          pose proof (reach_joined _ _ _ Hr _ _ H eq_refl) as Hp;
          simpl in Hp; subst; split; [by eapply at_pc_lookup|done]
      end.
  - intros Hd. split; [by eapply reach_done|]. split; [|split].
    + destruct (reach_stop _ _ _ Hr) as [_ [Hs _]].
      destruct (stop s); [done|]. by rewrite Hs in Hd.
    + simpl. by rewrite Hd.
    + intros l s' Hstep%step_Step. by eapply Step_done.
Qed.

End Shutdown.

(** C6 fails as stated: shutting down is not an operation that a
    caller invokes on a pool and may invoke again.  It is the
    destruction of the pool, and a pool that has been destroyed cannot
    be destroyed a second time: after a whole run of the destructor
    neither its first step nor its body can be run. *)
Lemma destructor_runs_once :
  ∃ s, reach 2 run_drained s ∧
    dtor s = DDone ∧
    step LStop s = None ∧
    exec (destructor_run 2) s = None.
Proof. eexists. split; [vm_compute; reflexivity|]. repeat split. Qed.

Lemma destructor_shuts_down_witness :
  ∃ s, reach 2 run_drained s ∧
    (∀ w th, workers s !! w = Some th → th = Thread Exited false) ∧
    stop s = true ∧
    step LStop s = None ∧
    ∀ l s', step l s = Some s' → s' = s.
Proof.
  eexists.
  match goal with
  | |- ?R ∧ _ => assert R as Hr by (vm_compute; reflexivity)
  end.
  split; [exact Hr|].
  destruct (destructor_shuts_down 2 run_drained _ Hr) as (_ & _ & _ & _ & Hd).
  apply Hd. reflexivity.
Defined.

(** * Further properties of the pool *)

Section Further.
Context {T : Type}.
Implicit Types (s : state T) (f : callable T) (l : label T) (tr : list (label T)).

(** Each accepted submission gets a future of its own.  The futures are
    numbered in the order of the submissions, no two submissions share
    one, the packaged task behind a future holds the callable that was
    submitted, and there are as many packaged tasks as accepted
    submissions: a rejected one leaves nothing behind. *)
Theorem futures_paired n tr s :
  reach n tr s →
  enqueued tr = seq 0 (length (enqueued tr)) ∧
  length (heap s) = length (enqueued tr) ∧
  (∀ f t, LEnqueue f t ∈ tr → ∃ o, heap s !! t = Some (PackagedTask f o)) ∧
  (∀ f1 f2 t, LEnqueue f1 t ∈ tr → LEnqueue f2 t ∈ tr → f1 = f2).
Proof.
  intros Hr. pose proof (reach_accounted _ _ _ Hr) as [He _ _ _].
  pose proof (reach_fulfilment _ _ _ Hr) as [Hb _ _ _].
  assert (length (heap s) = length (enqueued tr)) as Hlen
    by by rewrite He, length_seq.
  split; [by rewrite <-Hlen|]. split; [done|]. split.
  - intros f t Hin. specialize (Hb _ _ Hin).
    destruct (heap s !! t) as [[g o]|]; simplify_eq/=. by exists o.
  - intros f1 f2 t H1 H2.
    assert (NoDup (enqueued tr)) as Hnd by (rewrite He; apply NoDup_seq).
    by pose proof (omap_NoDup_elem enq_of tr _ _ t Hnd H1 H2 eq_refl eq_refl)
      as [= ->].
Qed.

(** No task gets lost, and none is in two places: the tasks that were
    accepted are, each once, the finished ones, those being run, those
    taken and not yet entered, and those in the queue. *)
Theorem tasks_conserved n tr s :
  reach n tr s →
  finished tr ++ running s ++ claimed s ++ tasks s ≡ₚ enqueued tr ∧
  NoDup (finished tr ++ running s ++ claimed s ++ tasks s) ∧
  (∀ t, t ∈ enqueued tr ↔
        t ∈ finished tr ∨ t ∈ running s ∨ t ∈ claimed s ∨ t ∈ tasks s).
Proof.
  intros Hr. pose proof (reach_accounted _ _ _ Hr) as Hacc.
  pose proof (accounted_perm _ _ Hacc) as Hperm.
  pose proof (accounted_NoDup _ _ Hacc) as Hnd.
  destruct Hacc as [He _ _ _]. rewrite <-He in Hperm.
  split; [done|]. split; [done|].
  intros t. rewrite <-Hperm, !elem_of_app. tauto.
Qed.

(** [get] on a future that [enqueue] returned is never undefined and
    never early.  As long as the pool is there it blocks until a worker
    has finished the task, and from then on it gives what the callable
    gave, also when the pool is gone.  A pool destroyed with a task
    that was not finished, which only a pool without workers can be,
    leaves a broken promise: [get] throws. *)
Theorem get_blocks_until_finished n tr s f t :
  reach n tr s → LEnqueue f t ∈ tr →
  (t ∈ finished tr →
     get (Future (Some t)) s = Got (f ()) (Future None) ∧
     get (Future (Some t)) (destroy_members s) = Got (f ()) (Future None)) ∧
  (t ∉ finished tr →
     (dtor s ≠ DDone → get (Future (Some t)) s = Blocks) ∧
     (dtor s = DDone →
        n = 0 ∧
        get (Future (Some t)) (destroy_members s)
        = Got (Threw (future_error broken_promise)) (Future None))) ∧
  (dtor s ≠ DDone →
     get (Future (Some t)) s ≠ Undefined ∧
     ∀ o fut', get (Future (Some t)) s = Got o fut' →
       t ∈ finished tr ∧ o = f () ∧ valid fut' = false).
Proof.
  intros Hr Hin.
  pose proof (get_pending _ _ _ _ _ Hr Hin) as Hp.
  pose proof (get_finished _ _ _ _ _ Hr Hin) as Hf.
  split; [|split].
  - intros Hfin. split; [auto|by eapply get_destroyed_finished].
  - intros Hfin. split; [auto|]. intros Hd.
    split; [|by eapply get_destroyed_pending].
    destruct n as [|n]; [done|]. destruct Hfin.
    eapply all_exited_finished; [done|lia| |done]. by eapply done_all_exited.
  - intros _. destruct (decide (t ∈ finished tr)) as [Hfin|Hfin].
    + rewrite (Hf Hfin). split; [done|]. by intros o fut' [= <- <-].
    + rewrite (Hp Hfin). split; done.
Qed.

Lemma held_length (ws : list thread) :
  length (omap claimed_of ws) + length (omap running_of ws) ≤ length ws.
Proof.
  assert (∀ (g : thread → option nat) th (k : list thread),
            omap g (th :: k) = option_list (g th) ++ omap g k) as Hcons.
  { intros g th k. simpl. by destruct (g th). }
  induction ws as [|[p j] ws IH]; [done|].
  rewrite !Hcons, !length_app. destruct p; simpl; lia.
Qed.

Lemma running_at s t : t ∈ running s ↔ ∃ w, at_pc w s = Some (Running t).
Proof.
  split.
  - intros ([p j] & [w Hw]%list_elem_of_lookup_1 & Hp)%list_elem_of_omap.
    unfold running_of in Hp; simpl in Hp. destruct p; simplify_eq.
    exists w. by eapply at_pc_lookup.
  - intros [w [j Hw]%at_pc_Some]. by eapply running_lookup.
Qed.

Lemma claimed_at s t : t ∈ claimed s ↔ ∃ w, at_pc w s = Some (Claimed t).
Proof.
  split.
  - intros ([p j] & [w Hw]%list_elem_of_lookup_1 & Hp)%list_elem_of_omap.
    unfold claimed_of in Hp; simpl in Hp. destruct p; simplify_eq.
    exists w. by eapply at_pc_lookup.
  - intros [w [j Hw]%at_pc_Some]. by eapply claimed_lookup.
Qed.

(** The pool never has more or fewer workers than it was built with.
    The tasks that have been entered and are not finished are exactly
    those that some worker is running, and the tasks taken off the
    queue and not entered exactly those that some worker holds; so in
    any execution the tasks entered, and even the tasks taken, are never
    more than [n] ahead of the tasks finished. *)
Theorem parallelism_bounded n tr s :
  reach n tr s →
  length (workers s) = n ∧
  (∀ t, t ∈ started tr ∧ t ∉ finished tr ↔ ∃ w, at_pc w s = Some (Running t)) ∧
  (∀ t, t ∈ dequeued tr ∧ t ∉ started tr ↔ ∃ w, at_pc w s = Some (Claimed t)) ∧
  length (started tr) ≤ length (finished tr) + n ∧
  length (dequeued tr) ≤ length (finished tr) + n.
Proof.
  intros Hr. pose proof (reach_workers _ _ _ Hr) as Hlen.
  pose proof (reach_started_NoDup _ _ _ Hr) as Hnds.
  pose proof (reach_enqueued_NoDup _ _ _ Hr) as [Hndd _]%NoDup_app.
  pose proof (reach_accounted _ _ _ Hr) as [_ _ Hc Hf].
  pose proof (held_length (workers s)) as Hheld.
  fold (claimed s) (running s) in Hheld.
  rewrite <-Hf in Hnds. rewrite <-Hc in Hndd.
  apply NoDup_app in Hnds as (_ & Hfr & _).
  apply NoDup_app in Hndd as (_ & Hsc & _).
  split; [done|]. split; [|split].
  - intros t. rewrite <-running_at, <-Hf, elem_of_app. split.
    + by intros [[?|?] ?].
    + intros Hrun. split; [by right|]. intros Hfin. by apply (Hfr _ Hfin).
  - intros t. rewrite <-claimed_at, <-Hc, elem_of_app. split.
    + by intros [[?|?] ?].
    + intros Hcl. split; [by right|]. intros Hst. by apply (Hsc _ Hst).
  - apply Permutation_length in Hc, Hf. rewrite length_app in Hc, Hf. lia.
Qed.

(** A pool of one worker runs the tasks one after the other in the order
    of their submission: the finished tasks are the first of those
    submitted, in that order, at most one task is being run, and it is
    the next one. *)
Theorem single_worker_sequential tr s :
  reach 1 tr s →
  (∃ rest, enqueued tr = finished tr ++ rest) ∧
  started tr = finished tr ++ running s ∧
  length (running s) + length (claimed s) ≤ 1 ∧
  enqueued tr = finished tr ++ running s ++ claimed s ++ tasks s.
Proof.
  intros Hr. destruct (reach_single _ _ Hr) as [Hc Hf].
  pose proof (reach_accounted _ _ _ Hr) as [_ Hq _ _].
  pose proof (held_length (workers s)) as Hb.
  rewrite (reach_workers _ _ _ Hr) in Hb. fold (claimed s) (running s) in Hb.
  assert (enqueued tr = finished tr ++ running s ++ claimed s ++ tasks s) as He
    by by rewrite <-Hq, <-Hc, <-Hf, <-!app_assoc.
  split; [by eexists|]. split; [done|]. split; [lia|done].
Qed.

(** A thread that has returned stays so. *)
Lemma Step_exited l s s' w :
  Step l s s' → at_pc w s = Some Exited → at_pc w s' = Some Exited.
Proof.
  intros Hstep [j Hw]%at_pc_Some. unfold at_pc.
  destruct Hstep; simpl; rewrite ?workers_run_task;
    rewrite ?list_lookup_alter, ?list_lookup_fmap, ?list_lookup_insert;
    repeat case_decide; destruct_and?; simplify_eq; rewrite ?Hw; try done.
Qed.

Lemma Step_actor l s s' w :
  Step l s s' → at_pc w s = Some Exited → actor l ≠ Some w.
Proof.
  intros Hstep [j Hw]%at_pc_Some. destruct Hstep; simpl; try done;
    intros [= ->]; congruence.
Qed.

(** A worker returns for good: once it has left its loop it is never
    seen in the loop again, whatever happens to the pool, and it makes
    no further move of its own. *)
Theorem worker_exits_for_good n tr s w :
  reach n tr s → LExit w ∈ tr →
  at_pc w s = Some Exited ∧
  stop s = true ∧
  ∀ l s', step l s = Some s' → at_pc w s' = Some Exited ∧ actor l ≠ Some w.
Proof.
  intros Hr Hin.
  assert (at_pc w s = Some Exited) as Hw.
  { revert tr s Hr Hin. apply (reach_ind n (λ tr s, LExit w ∈ tr → _)).
    { by intros ?%elem_of_nil. }
    intros tr s l s' Hr IH Hstep [Hin|Heq%list_elem_of_singleton]%elem_of_app.
    - eapply Step_exited; eauto.
    - subst l. inversion Hstep; subst. unfold at_pc, set_pc; simpl.
      rewrite list_lookup_alter_eq.
      by match goal with H : workers s !! w = _ |- _ => rewrite H end. }
  split; [done|]. split.
  - apply at_pc_Some in Hw as [j Hw].
    by destruct (reach_exited _ _ _ Hr _ _ Hw eq_refl).
  - intros l s' Hstep%step_Step.
    split; [by eapply Step_exited|by eapply Step_actor].
Qed.

End Further.

(** * The wake-up protocol *)

Section Notifications.
Context {T : Type}.
Implicit Types (s : state T) (f : callable T) (l : label T) (tr : list (label T)).
Implicit Types (ns : nstate T) (nl : nlabel T) (ntr : list (nlabel T)).

(** The three ways in which [nstep] fires. *)
Lemma nstep_inv nl ns ns' :
  nstep nl ns = Some ns' →
  (∃ l, nl = NPool l ∧ Step l (pool ns) (pool ns') ∧
        pending ns' = length (option_list (enq_of l)) + pending ns) ∨
  (∃ w, nl = NNotify (Some w) ∧ Step (LWake w) (pool ns) (pool ns') ∧
        pending ns = S (pending ns')) ∨
  (nl = NNotify None ∧ pool ns' = pool ns ∧ pending ns = S (pending ns') ∧
   nobody_waits (pool ns) = true).
Proof.
  destruct nl as [l|[w|]]; unfold nstep.
  - destruct (step l (pool ns)) as [s'|] eqn:Hstep; [|done].
    intros [= <-]. left. exists l. split; [done|].
    split; [by apply step_Step|]. by destruct l.
  - destruct (pending ns) as [|p] eqn:Hp; [done|].
    destruct (step (LWake w) (pool ns)) as [s'|] eqn:Hstep; [|done].
    intros [= <-]. right; left. exists w. split; [done|].
    split; [by apply step_Step|done].
  - destruct (pending ns) as [|p] eqn:Hp; [done|].
    destruct (nobody_waits (pool ns)) eqn:Hw; [|done].
    intros [= <-]. by right; right.
Qed.

Lemma nexec_app ntr1 ntr2 ns :
  nexec (ntr1 ++ ntr2) ns = nexec ntr1 ns ≫= nexec ntr2.
Proof.
  revert ns. induction ntr1 as [|nl ntr1 IH]; intros ns; simpl; [done|].
  destruct (nstep nl ns); simpl; [apply IH|done].
Qed.

Lemma nexec_snoc ntr nl ns ns' :
  nexec (ntr ++ [nl]) ns = Some ns' ↔
  ∃ ns1, nexec ntr ns = Some ns1 ∧ nstep nl ns1 = Some ns'.
Proof.
  rewrite nexec_app. split.
  - destruct (nexec ntr ns) as [ns1|]; simpl; [|done].
    destruct (nstep nl ns1) eqn:Hl; [|done]. intros [= <-]. eauto.
  - intros (ns1 & -> & Hl). simpl. by rewrite Hl.
Qed.

Lemma nreach_ind n (P : list (nlabel T) → nstate T → Prop) :
  P [] (NState (ThreadPool n) 0) →
  (∀ ntr ns nl ns', nreach n ntr ns → P ntr ns → nstep nl ns = Some ns' →
     P (ntr ++ [nl]) ns') →
  ∀ ntr ns, nreach n ntr ns → P ntr ns.
Proof.
  intros H0 HS ntr. induction ntr as [|nl ntr IH] using rev_ind; intros ns Hr.
  - injection Hr as <-. exact H0.
  - apply nexec_snoc in Hr as (ns1 & Hr & Hl). eapply HS; eauto.
Qed.

Lemma erase_snoc ntr nl : erase (ntr ++ [nl]) = erase ntr ++ erase1 nl.
Proof. unfold erase. rewrite bind_app, bind_cons. simpl. by rewrite app_nil_r. Qed.

Lemma exec_one l s : exec [l] s = step l s.
Proof. unfold exec. by destruct (step l s). Qed.

Lemma nstep_erase nl ns ns' :
  nstep nl ns = Some ns' → exec (erase1 nl) (pool ns) = Some (pool ns').
Proof.
  intros [(l & -> & Hs & _)|[(w & -> & Hs & _)|(-> & Hs & _)]]%nstep_inv;
    unfold erase1.
  - by rewrite exec_one, (Step_step _ _ _ Hs).
  - by rewrite exec_one, (Step_step _ _ _ Hs).
  - by rewrite Hs.
Qed.

Lemma nreach_reach n ntr ns :
  nreach n ntr ns → reach n (erase ntr) (pool ns).
Proof.
  revert ntr ns. apply nreach_ind; [done|].
  intros ntr ns nl ns' _ IH Hstep. unfold reach in *.
  by rewrite erase_snoc, exec_app, IH; simpl; apply nstep_erase.
Qed.

Lemma exec_nexec tr : ∀ s s' p,
  exec tr s = Some s' →
  nexec (NPool <$> tr) (NState s p) = Some (NState s' (length (enqueued tr) + p)) ∧
  erase (NPool <$> tr) = tr.
Proof.
  induction tr as [|l tr IH]; intros s s' p He.
  - by injection He as <-.
  - rewrite fmap_cons. cbn [nexec nstep pool pending exec] in *.
    destruct (step l s) as [s1|] eqn:Hl; [|done].
    destruct (IH _ _ (match l with LEnqueue _ _ => S p | _ => p end) He)
      as [-> Her].
    split; [|unfold erase in *; rewrite bind_cons, Her; done].
    unfold enqueued. do 2 f_equal.
    change (omap enq_of (l :: tr))
      with (match enq_of l with
            | Some t => t :: omap enq_of tr
            | None => omap enq_of tr
            end).
    destruct l; cbn [enq_of length]; lia.
Qed.

(** Keeping count of the notifications takes nothing away from the pool
    and adds nothing to it: what the pool does in an execution with the
    count is an execution of the pool, and every execution of the pool
    is one with the count, every wake-up taken as spurious.  The count
    is the number of accepted submissions less the calls of
    [notify_one]. *)
Theorem notifications_refine n :
  (∀ ntr ns, nreach n ntr ns →
     reach n (erase ntr) (pool ns) ∧
     pending ns
     + length (omap (λ nl, match nl with NNotify w => Some w | _ => None end) ntr)
     = length (enqueued (erase ntr))) ∧
  (∀ tr s, reach n tr s →
     nreach n (NPool <$> tr) (NState s (length (enqueued tr))) ∧
     erase (NPool <$> tr) = tr).
Proof.
  split.
  - intros ntr ns Hr. split; [by apply nreach_reach|].
    revert ntr ns Hr. apply nreach_ind; [done|].
    intros ntr ns nl ns' _ IH Hstep.
    rewrite omap_snoc, erase_snoc. unfold enqueued in *.
    rewrite omap_app, !length_app.
    apply nstep_inv in Hstep
      as [(l & -> & _ & Hp)|[(w & -> & _ & Hp)|(-> & _ & Hp & _)]]; simpl;
      rewrite ?length_app; try destruct (enq_of l); simpl in *; lia.
  - intros tr s Hr.
    destruct (exec_nexec _ _ _ 0 Hr) as [He Her].
    split; [|done]. unfold nreach. by rewrite He, Nat.add_0_r.
Qed.

End Notifications.

Section Wakeups.
Context {T : Type}.
Implicit Types (s : state T) (f : callable T) (l : label T) (tr : list (label T)).
Implicit Types (ns : nstate T) (nl : nlabel T) (ntr : list (nlabel T)).

Lemma wake_active th : active (pc th) = true → active (pc (wake th)) = true.
Proof. by destruct th as [[] j]. Qed.

(** While there is a task in the queue a worker that will look at the
    queue stays one, whatever happens. *)
Lemma Step_active l s s' w p :
  Step l s s' → tasks s ≠ [] →
  at_pc w s = Some p → active p = true →
  ∃ p', at_pc w s' = Some p' ∧ active p' = true.
Proof.
  intros Hstep Hq [j Hw]%at_pc_Some Ha. unfold at_pc.
  destruct Hstep; simpl; rewrite ?workers_run_task;
    rewrite ?list_lookup_alter, ?list_lookup_fmap, ?list_lookup_insert;
    repeat case_decide; destruct_and?; simplify_eq; rewrite ?Hw; simpl;
    try (by eauto);
    repeat match goal with
      | H : workers _ !! _ = Some _ |- _ => rewrite H
      end; simpl; try (by eauto).
  eexists. split; [done|]. by apply wake_active.
Qed.

Lemma nobody_waits_lookup s w th :
  nobody_waits s = true → workers s !! w = Some th → pc th ≠ Waiting.
Proof.
  unfold nobody_waits. generalize (workers s). intros ws. revert w.
  induction ws as [|a ws IH]; intros [|w] Hall Hw; simplify_eq/=;
    apply andb_true_iff in Hall as [Ha Hall]; [by destruct (pc th)|eauto].
Qed.

Lemma somebody_waits s :
  nobody_waits s = false → ∃ w j, workers s !! w = Some (Thread Waiting j).
Proof.
  unfold nobody_waits. generalize (workers s). intros ws.
  induction ws as [|[p j] ws IH]; simpl; [done|].
  destruct p; simpl; try (intros Hf; destruct (IH Hf) as (w & j' & Hw);
                          by exists (S w), j').
  intros _. by exists 0, j.
Qed.

Lemma omap_nonempty {A B} (g : A → option B) (k : list A) :
  omap g k ≠ [] → ∃ i x b, k !! i = Some x ∧ g x = Some b.
Proof.
  induction k as [|a k IH]; simpl; [done|].
  destruct (g a) as [b|] eqn:Hg.
  - intros _. by exists 0, a, b.
  - intros (i & x & b & Hi & Hx)%IH. by exists (S i), x, b.
Qed.

Lemma nreach_wakeup n ntr ns :
  nreach n ntr ns → 0 < n → tasks (pool ns) ≠ [] →
  0 < pending ns ∨ ∃ w p, at_pc w (pool ns) = Some p ∧ active p = true.
Proof.
  intros Hr Hn. revert ntr ns Hr.
  refine (nreach_ind n (λ _ ns, tasks (pool ns) ≠ [] → _) _ _); [done|].
  intros ntr ns nl ns' Hr IH Hstep Hq.
  pose proof (nreach_reach _ _ _ Hr) as Hreach.
  apply nstep_inv in Hstep
    as [(l & -> & Hs & Hp)|[(w & -> & Hs & Hp)|(-> & Hs & Hp & Hw)]].
  - destruct (enq_of l) as [t|] eqn:Hl; [left; simpl in Hp; lia|].
    assert (tasks (pool ns) ≠ []) as Hq0.
    { intros Hq0. pose proof (Step_queue _ _ _ Hs) as Hsq.
      rewrite Hq0, Hl in Hsq. simpl in Hsq.
      by apply app_eq_nil in Hsq as [_ ?]. }
    destruct (IH Hq0) as [Hpos|(w & p & Hw & Ha)].
    + left. simpl in Hp. lia.
    + right. destruct (Step_active _ _ _ _ _ Hs Hq0 Hw Ha) as (p' & ? & ?).
      by exists w, p'.
  - right. exists w, Ready. split; [|done]. inversion Hs; subst.
    unfold at_pc, set_pc; simpl. rewrite list_lookup_alter_eq.
    by match goal with H : workers (pool ns) !! w = _ |- _ => rewrite H end.
  - right. rewrite Hs in *.
    destruct (lookup_lt_is_Some_2 (workers (pool ns)) 0) as [[p j] H0].
    { rewrite (reach_workers _ _ _ Hreach). lia. }
    exists 0, p. split; [by eapply at_pc_lookup|].
    pose proof (nobody_waits_lookup _ _ _ Hw H0) as Hnw.
    destruct p; try done.
    by destruct (reach_exited _ _ _ Hreach _ _ H0 eq_refl) as [_ ?].
Qed.

(** No wake-up is lost.  In a pool that has a worker, as long as a task
    is in the queue either a submitter has yet to call [notify_one], or
    some worker is at the head of its loop or busy with a task, and so
    will come to the queue without being woken. *)
Theorem wakeup_not_lost n ntr ns :
  nreach n ntr ns → 0 < n → tasks (pool ns) ≠ [] →
  0 < pending ns ∨ ∃ w p, at_pc w (pool ns) = Some p ∧ active p = true.
Proof. apply nreach_wakeup. Qed.

(** What the threads can do without any task returning.  If there is
    something to do besides the tasks being run, then a task is being
    run, or some thread can make a move of its own that is not the
    return from a task. *)
Lemma protocol_step n ntr ns :
  nreach n ntr ns → 0 < n →
  tasks (pool ns) ≠ [] ∨ claimed (pool ns) ≠ [] ∨
  0 < pending ns ∨ (stop (pool ns) = true ∧ dtor (pool ns) ≠ DDone) →
  running (pool ns) ≠ [] ∨
  ∃ nl ns', nstep nl ns = Some ns' ∧ forced nl = true ∧
            ∀ w t, nl ≠ NPool (LFinish w t).
Proof.
  intros Hr Hn. pose proof (nreach_reach _ _ _ Hr) as Hreach.
  set (G := running (pool ns) ≠ [] ∨
            ∃ nl ns', nstep nl ns = Some ns' ∧ forced nl = true ∧
                      ∀ w t, nl ≠ NPool (LFinish w t)).
  assert (∀ l s', Step l (pool ns) s' → forced (NPool l) = true →
            (∀ w t, l ≠ LFinish w t) → G) as Hpool.
  { intros l s' Hs Hf Hl. right. exists (NPool l). eexists.
    split; [|split; [done|]].
    - unfold nstep. by rewrite (Step_step _ _ _ Hs).
    - intros w t [= ->]. by eapply Hl. }
  assert (∀ w t j, workers (pool ns) !! w = Some (Thread (Running t) j) → G)
    as Hrun.
  { intros w t j Hw. left. intros He.
    pose proof (running_lookup _ _ _ _ Hw) as Hin.
    rewrite He in Hin. by apply elem_of_nil in Hin. }
  assert (∀ w p, at_pc w (pool ns) = Some p → active p = true →
            tasks (pool ns) ≠ [] → G) as Hact.
  { intros w p [j Hw]%at_pc_Some Ha Hq. destruct p as [| |t|t|]; try done.
    - destruct (tasks (pool ns)) as [|t q] eqn:Hq'; [done|].
      eapply (Hpool (LDequeue w t)); [by econstructor|done..].
    - eapply (Hpool (LStart w t)); [by econstructor|done..].
    - by eapply Hrun. }
  assert (claimed (pool ns) ≠ [] → G) as Hcl.
  { intros (w & [p j] & t & Hw & Ht)%omap_nonempty.
    unfold claimed_of in Ht; simpl in Ht. destruct p; simplify_eq.
    eapply (Hpool (LStart w t)); [by econstructor|done..]. }
  assert (0 < pending ns → G) as Hpend.
  { intros Hp. right. destruct (pending ns) as [|p] eqn:Hpe; [lia|].
    destruct (nobody_waits (pool ns)) eqn:Hw.
    - exists (NNotify None). eexists. split; [|done].
      unfold nstep. by rewrite Hpe, Hw.
    - destruct (somebody_waits _ Hw) as (w & j & Hwj).
      exists (NNotify (Some w)). eexists. split; [|done].
      unfold nstep. rewrite Hpe.
      by rewrite (Step_step _ _ _ (S_wake _ _ _ Hwj)). }
  assert (tasks (pool ns) ≠ [] → G) as Hq.
  { intros Hq. destruct (nreach_wakeup _ _ _ Hr Hn Hq) as [?|(w & p & ? & ?)];
      eauto. }
  assert (stop (pool ns) = true → dtor (pool ns) ≠ DDone → G) as Hstop.
  { intros Hs Hd.
    destruct (shutdown_progress _ _ _ Hreach Hs Hd) as (l & s' & Hstep & Hi).
    destruct l; try done;
      try (by eapply Hpool; [done|done|done]).
    inversion Hstep; subst. by eapply Hrun. }
  intros [?|[?|[?|[? ?]]]]; eauto.
Qed.

(** A task that is being run returns, so as long as there is anything
    to do some thread can make a move of its own. *)
Lemma forced_step n ntr ns :
  nreach n ntr ns → 0 < n →
  tasks (pool ns) ≠ [] ∨ claimed (pool ns) ≠ [] ∨ running (pool ns) ≠ [] ∨
  0 < pending ns ∨ (stop (pool ns) = true ∧ dtor (pool ns) ≠ DDone) →
  ∃ nl ns', nstep nl ns = Some ns' ∧ forced nl = true.
Proof.
  intros Hr Hn Hwork.
  assert (running (pool ns) ≠ [] →
            ∃ nl ns', nstep nl ns = Some ns' ∧ forced nl = true) as Hrun.
  { intros (w & [p j] & t & Hw & Ht)%omap_nonempty.
    unfold running_of in Ht; simpl in Ht. destruct p; simplify_eq.
    exists (NPool (LFinish w t)). eexists. split; [|done].
    unfold nstep. by rewrite (Step_step _ _ _ (S_finish _ _ _ _ Hw)). }
  destruct (decide (running (pool ns) = [])) as [He|?]; [|auto].
  destruct (protocol_step _ _ _ Hr Hn) as [?|(nl & ns' & ? & ? & _)].
  - destruct Hwork as [?|[?|[?|[?|?]]]];
      [by left|by right; left|done|by right; right; left|by right; right; right].
  - done.
  - eauto.
Qed.

(** The pool has no deadlock of its own.  In a pool with a worker, as
    long as there is something to do besides the tasks being run (a
    task in the queue or taken and not yet entered, a call of
    [notify_one] to come, a destructor under way), either a worker is
    inside a task, or some thread can make a move of its own that is not
    the return from a task: nothing depends on a spurious wake-up or on
    another submission, and the one thing the pool ever waits for is a
    task that is being run.  So when no worker is inside a task and no
    thread can make a move of its own, every accepted task has been
    finished and its future is ready. *)
Theorem pool_never_stuck n ntr ns :
  nreach n ntr ns → 0 < n →
  (tasks (pool ns) ≠ [] ∨ claimed (pool ns) ≠ [] ∨
   0 < pending ns ∨ (stop (pool ns) = true ∧ dtor (pool ns) ≠ DDone) →
   (∃ w t, at_pc w (pool ns) = Some (Running t)) ∨
   ∃ nl ns', nstep nl ns = Some ns' ∧ forced nl = true ∧
             ∀ w t, nl ≠ NPool (LFinish w t)) ∧
  ((∀ w t, at_pc w (pool ns) ≠ Some (Running t)) →
   (∀ nl ns', nstep nl ns = Some ns' → forced nl = false) →
   ∀ f t, LEnqueue f t ∈ erase ntr →
     get (Future (Some t)) (pool ns) = Got (f ()) (Future None)).
Proof.
  intros Hr Hn. pose proof (nreach_reach _ _ _ Hr) as Hreach.
  split.
  - intros Hwork.
    destruct (protocol_step _ _ _ Hr Hn Hwork)
      as [(w & [p j] & t & Hw & Ht)%omap_nonempty|?]; [|by right].
    left. unfold running_of in Ht; simpl in Ht. destruct p; simplify_eq.
    exists w, t. by eapply at_pc_lookup.
  - intros Hnorun Hnone f t Hin.
    assert (running (pool ns) = []) as Hre.
    { destruct (running (pool ns)) as [|t' k] eqn:He; [done|].
      assert (t' ∈ running (pool ns)) as [w Hw]%running_at
        by (rewrite He; by left).
      by destruct (Hnorun w t'). }
    assert (∀ P : Prop,
              (P → tasks (pool ns) ≠ [] ∨ claimed (pool ns) ≠ [] ∨
                   0 < pending ns ∨
                   (stop (pool ns) = true ∧ dtor (pool ns) ≠ DDone)) → ¬ P)
      as Hno.
    { intros P HP HPt.
      destruct (protocol_step _ _ _ Hr Hn (HP HPt))
        as [?|(nl & ns' & Hst & Hf & _)]; [done|].
      by rewrite (Hnone _ _ Hst) in Hf. }
    eapply get_finished; [done..|].
    eapply idle_finished; [done| | |done|done].
    + destruct (tasks (pool ns)); [done|destruct (Hno True); auto].
    + destruct (claimed (pool ns)); [done|destruct (Hno True); auto].
Qed.

Lemma sum_wake_n (ws : list thread) :
  sum_list_with (λ th, nweight (pc th)) (wake <$> ws)
  ≤ sum_list_with (λ th, nweight (pc th)) ws + length ws.
Proof.
  induction ws as [|[p j] ws IH]; csimpl; [done|].
  assert (nweight (pc (wake (Thread p j))) ≤ nweight p + 1)
    by (destruct p; simpl; lia).
  lia.
Qed.

Lemma Step_nmeasure l s s' p :
  Step l s s' → forced (NPool l) = true →
  nmeasure (NState s' p) < nmeasure (NState s p).
Proof.
  destruct 1; intros Hi; try done; unfold nmeasure; simpl;
    rewrite ?tasks_run_task, ?workers_run_task, ?dtor_run_task,
      ?length_alter, ?length_fmap, ?length_insert, ?list_insert_alter;
    try match goal with
      | H : workers s !! ?w = Some ?x |- context [alter ?h ?w (workers s)] =>
          pose proof (sum_alter (λ th, nweight (pc th)) h _ _ _ H);
          pose proof (lookup_lt_Some _ _ _ H)
      end;
    repeat match goal with
      | H : tasks s = _ |- _ => rewrite H
      | H : dtor s = _ |- _ => rewrite H
      end; simpl in *; try lia.
  - pose proof (sum_wake_n (workers s)). lia.
  - match goal with
    | H : workers s !! _ = Some _ |- _ => apply lookup_lt_Some in H
    end. lia.
Qed.

Lemma nstep_nmeasure nl ns ns' :
  nstep nl ns = Some ns' → forced nl = true → nmeasure ns' < nmeasure ns.
Proof.
  intros Hstep Hf. destruct ns as [s p], ns' as [s' p'].
  apply nstep_inv in Hstep
    as [(l & -> & Hs & Hp)|[(w & -> & Hs & Hp)|(-> & Hs & Hp & Hw)]];
    simpl in *.
  - destruct l; simpl in *; try done; subst p';
      by apply (Step_nmeasure _ _ _ p Hs).
  - subst p. inversion Hs; subst. unfold nmeasure; simpl.
    rewrite length_alter.
    match goal with
    | H : workers s !! w = Some _ |- _ =>
        pose proof (sum_alter (λ th, nweight (pc th))
                      (λ th, Thread Ready (joinable th)) _ _ _ H)
    end. simpl in *. lia.
  - subst. unfold nmeasure; simpl. lia.
Qed.

(** From any state it reaches the pool can be run, by moves of the
    threads' own, until nothing is left to do. *)
Lemma pool_can_settle n : ∀ k ntr ns,
  nmeasure ns < k → nreach n ntr ns → 0 < n →
  ∃ ntr' ns', nexec ntr' ns = Some ns' ∧ forallb forced ntr' = true ∧
    nreach n (ntr ++ ntr') ns' ∧
    tasks (pool ns') = [] ∧ claimed (pool ns') = [] ∧ running (pool ns') = [].
Proof.
  induction k as [|k IH]; intros ntr ns Hk Hr Hn; [lia|].
  destruct (decide (tasks (pool ns) = [] ∧ claimed (pool ns) = [] ∧
                    running (pool ns) = [])) as [Hidle|Hwork].
  - exists [], ns. by rewrite app_nil_r.
  - destruct (forced_step _ _ _ Hr Hn) as (nl & ns1 & Hstep & Hf).
    { destruct (tasks (pool ns)); [|by left].
      destruct (claimed (pool ns)); [|by right; left].
      destruct (running (pool ns)); [|by right; right; left].
      by destruct Hwork. }
    pose proof (nstep_nmeasure _ _ _ Hstep Hf).
    destruct (IH (ntr ++ [nl]) ns1) as (ntr' & ns' & He & Hfs & Hr' & Hidle);
      [lia|by apply nexec_snoc; exists ns|done|].
    exists (nl :: ntr'), ns'. simpl.
    rewrite Hstep, Hf. rewrite <-app_assoc in Hr'. done.
Qed.

(** Left to itself the pool settles: from any state, the moves that no
    caller and no spurious wake-up prompts, the run of a task counted
    as the one move of returning from it, are at most [nmeasure]
    many. *)
Theorem pool_settles ntr ns ns' :
  nexec ntr ns = Some ns' → forallb forced ntr = true →
  length ntr + nmeasure ns' ≤ nmeasure ns.
Proof.
  revert ns ns'.
  induction ntr as [|nl ntr IH]; intros ns ns' He Hf; simpl in *.
  - injection He as <-. lia.
  - apply andb_true_iff in Hf as [Hl Hf].
    destruct (nstep nl ns) as [ns1|] eqn:Hstep; [|done].
    pose proof (nstep_nmeasure _ _ _ Hstep Hl). specialize (IH _ _ He Hf). lia.
Qed.

End Wakeups.

(** * Failures of tasks *)

Section Failures.
Context {T : Type}.
Implicit Types (s : state T) (f : callable T) (l : label T) (tr : list (label T)).
Implicit Types (ns : nstate T) (nl : nlabel T) (ntr : list (nlabel T)).

(** C5.  Nothing a task throws reaches the worker that runs it: no
    worker has had anything to report to [std::cerr].  When a task is
    over, however it ended, its worker is back at the head of the loop;
    the other workers, the queue, [stop] and the slots of the other
    tasks are as they were; and that worker can take the task at the
    front of the queue.  What a task threw or returned is what [get]
    gives on its future, whatever the other tasks did.  A worker returns
    only after [stop] was set, and by the time the destructor of a pool
    with a worker returns every queued task has been finished.  And the
    other tasks do get run: from any state that a pool with a worker
    reaches, the threads' own moves, without a further submission or a
    spurious wake-up, lead to a state in which every task that was
    accepted is finished and its future gives what its own callable
    gave. *)
Theorem task_failure_contained n tr s :
  reach n tr s →
  cerr s = [] ∧
  (∀ w t s', step (LFinish w t) s = Some s' →
     at_pc w s' = Some Ready ∧ cerr s' = [] ∧
     (∀ w', w' ≠ w → at_pc w' s' = at_pc w' s) ∧
     tasks s' = tasks s ∧ stop s' = stop s ∧
     (∀ t', t' ≠ t → heap s' !! t' = heap s !! t') ∧
     (∀ t' q, tasks s = t' :: q →
        ∃ s'', step (LDequeue w t') s' = Some s'' ∧
               at_pc w s'' = Some (Claimed t') ∧ tasks s'' = q)) ∧
  (∀ f t, LEnqueue f t ∈ tr → t ∈ finished tr →
     get (Future (Some t)) s = Got (f ()) (Future None)) ∧
  (∀ w, at_pc w s = Some Exited → LStop ∈ tr) ∧
  (0 < n → dtor s = DDone → ∀ f t, LEnqueue f t ∈ tr → t ∈ finished tr) ∧
  (0 < n → ∀ ntr ns, nreach n ntr ns → erase ntr = tr → pool ns = s →
     ∃ ntr' ns', nexec ntr' ns = Some ns' ∧ forallb forced ntr' = true ∧
       ∀ f t, LEnqueue f t ∈ tr →
         t ∈ finished (tr ++ erase ntr') ∧
         get (Future (Some t)) (pool ns') = Got (f ()) (Future None)).
Proof.
  intros Hr. split; [by apply reach_fulfilment in Hr as [_ _ _ ?]|].
  split; [|split; [|split; [|split]]].
  - intros w t s' Hstep%step_Step.
    pose proof (reach_snoc _ _ _ _ _ Hr Hstep) as [_ _ _ Hc]%reach_fulfilment.
    inversion Hstep as [| | | | | | |w0 j t0 s0 Hw| | | | |]; subst.
    assert (at_pc w (set_pc w Ready (run_task t s)) = Some Ready) as Hready.
    { unfold at_pc, set_pc; simpl.
      by rewrite list_lookup_alter_eq, workers_run_task, Hw. }
    split; [done|]. split; [done|]. split; [|split; [|split; [|split]]].
    + intros w' Hne. unfold at_pc, set_pc; simpl.
      by rewrite list_lookup_alter_ne, workers_run_task.
    + simpl. apply tasks_run_task.
    + simpl. apply stop_run_task.
    + intros t' Hne. simpl. by apply heap_run_task_ne.
    + intros t' q Hq.
      apply at_pc_Some in Hready as [j' Hw'].
      eexists. split.
      * apply Step_step. eapply S_dequeue; [done|].
        simpl. by rewrite tasks_run_task.
      * split; [|done]. unfold at_pc, set_pc; simpl.
        rewrite list_lookup_alter_eq, list_lookup_alter_eq, workers_run_task.
        by rewrite Hw.
  - intros f t Hin Hfin. by eapply get_finished.
  - intros w [j Hw]%at_pc_Some.
    destruct (reach_exited _ _ _ Hr _ _ Hw eq_refl) as [Hs _].
    by apply (reach_stop _ _ _ Hr).
  - intros Hn Hd. eapply all_exited_finished; [done..|].
    by eapply done_all_exited.
  - intros Hn ntr ns Hnr <- <-.
    destruct (pool_can_settle n (S (nmeasure ns)) ntr ns)
      as (ntr' & ns' & He & Hf & Hr' & Hq & Hcl & Hrun); [lia|done..|].
    exists ntr', ns'. split; [done|]. split; [done|].
    intros f t Hin.
    apply nreach_reach in Hr'.
    assert (erase (ntr ++ ntr') = erase ntr ++ erase ntr') as Her
      by (unfold erase; apply bind_app).
    rewrite Her in Hr'.
    assert (LEnqueue f t ∈ erase ntr ++ erase ntr') as Hin'
      by (apply elem_of_app; by left).
    assert (t ∈ finished (erase ntr ++ erase ntr')) as Hfin
      by by eapply idle_finished.
    split; [done|]. by eapply get_finished.
Qed.

End Failures.

Lemma task_failure_contained_witness :
  ∃ s s', reach 1 run_failing s ∧
    step (LFinish 0 0) s = Some s' ∧
    get (Future (Some 0)) s' = Got (Threw (runtime_error "boom")) (Future None) ∧
    cerr s' = [] ∧
    at_pc 0 s' = Some Ready ∧
    tasks s' = [1] ∧
    (∃ s'', step (LDequeue 0 1) s' = Some s'' ∧
            at_pc 0 s'' = Some (Claimed 1) ∧ tasks s'' = []) ∧
    ∃ ntr' ns', nexec ntr' (NState s' 2) = Some ns' ∧
      forallb forced ntr' = true ∧
      get (Future (Some 1)) (pool ns') = Got (Returned 9%Z) (Future None).
Proof.
  eexists _, _.
  match goal with
  | |- ?R ∧ ?S ∧ _ =>
      assert R as Hr by (vm_compute; reflexivity);
      assert S as Hs by (vm_compute; reflexivity)
  end.
  split; [exact Hr|]. split; [exact Hs|].
  match type of Hs with
  | _ = Some ?s' =>
      assert (reach 1 (run_failing ++ [LFinish 0 0]) s') as Hr'
        by (vm_compute; reflexivity);
      assert (nreach 1 (NPool <$> (run_failing ++ [LFinish 0 0])) (NState s' 2))
        as Hn by (vm_compute; reflexivity)
  end.
  destruct (task_failure_contained 1 run_failing _ Hr) as (_ & Hfin & _).
  destruct (Hfin 0 0 _ Hs) as (Hready & Hc & _ & Hq & _ & _ & Hdeq).
  destruct (task_failure_contained 1 (run_failing ++ [LFinish 0 0]) _ Hr')
    as (_ & _ & Hg & _ & _ & Hlive).
  split; [apply (Hg (failing "boom") 0); [by left|vm_compute; by left]|].
  split; [exact Hc|]. split; [exact Hready|]. split; [exact Hq|].
  split; [by apply (Hdeq 1 [])|].
  destruct (Hlive ltac:(lia) _ _ Hn eq_refl eq_refl) as (ntr' & ns' & He & Hf & Hall).
  exists ntr', ns'. split; [exact He|]. split; [exact Hf|].
  apply (Hall (square 3) 1). right; by left.
Defined.

(** * The program [main] *)

Section Main.
Implicit Types (p : prog) (pl : plabel) (ptr : list plabel).
Implicit Types (s : state Z) (l : label Z).

Lemma pexec_app ptr1 ptr2 p :
  pexec (ptr1 ++ ptr2) p = pexec ptr1 p ≫= pexec ptr2.
Proof.
  revert p. induction ptr1 as [|pl ptr1 IH]; intros p; simpl; [done|].
  destruct (pstep pl p); simpl; [apply IH|done].
Qed.

Lemma pexec_snoc ptr pl p p' :
  pexec (ptr ++ [pl]) p = Some p' ↔
  ∃ p1, pexec ptr p = Some p1 ∧ pstep pl p1 = Some p'.
Proof.
  rewrite pexec_app. split.
  - destruct (pexec ptr p) as [p1|]; simpl; [|done].
    destruct (pstep pl p1) eqn:Hl; [|done]. intros [= <-]. eauto.
  - intros (p1 & -> & Hl). simpl. by rewrite Hl.
Qed.

Lemma preach_ind hint (P : list plabel → prog → Prop) :
  P [] (main_init hint) →
  (∀ ptr p pl p', preach hint ptr p → P ptr p → pstep pl p = Some p' →
     P (ptr ++ [pl]) p') →
  ∀ ptr p, preach hint ptr p → P ptr p.
Proof.
  intros H0 HS ptr. induction ptr as [|pl ptr IH] using rev_ind; intros p Hr.
  - injection Hr as <-. exact H0.
  - apply pexec_snoc in Hr as (p1 & Hr & Hl). eapply HS; eauto.
Qed.

Lemma squares_snoc i :
  squares i ++ [(Z.of_nat i * Z.of_nat i)%Z] = squares (S i).
Proof. unfold squares. by rewrite seq_S, fmap_app. Qed.

Lemma handles_snoc i : handles 0 i ++ [Future (Some i)] = handles 0 (S i).
Proof.
  unfold handles. rewrite !Nat.sub_0_r, seq_S, fmap_app. by simpl.
Qed.

Lemma handles_lookup i k : i < k → handles i k !! i = Some (Future (Some i)).
Proof.
  intros Hik. unfold handles.
  rewrite lookup_app_r by (rewrite length_replicate; lia).
  rewrite length_replicate, Nat.sub_diag.
  by replace (k - i) with (S (k - S i)) by lia.
Qed.

Lemma handles_read i k :
  i < k → <[i := Future None]> (handles i k) = handles (S i) k.
Proof.
  intros Hik. unfold handles.
  rewrite insert_app_r_alt by (rewrite length_replicate; lia).
  rewrite length_replicate, Nat.sub_diag.
  replace (k - i) with (S (k - S i)) by lia.
  by rewrite replicate_S_end, <-app_assoc.
Qed.

Lemma handles_length i k : i ≤ k → length (handles i k) = k.
Proof.
  intros Hik. unfold handles.
  rewrite length_app, length_replicate, length_fmap, length_seq. lia.
Qed.

Lemma run_task_heap t s t' (pt' : packaged_task Z) :
  heap (run_task t s) !! t' = Some pt' →
  ∃ pt, heap s !! t' = Some pt ∧ fn pt' = fn pt.
Proof.
  unfold run_task, invoke.
  destruct (heap s !! t) as [[g [o|]]|] eqn:Ht; simpl; eauto.
  destruct (decide (t = t')) as [<-|Hne].
  - rewrite list_lookup_insert_eq by by eapply lookup_lt_Some.
    intros [= <-]. eauto.
  - rewrite list_lookup_insert_ne by done. eauto.
Qed.

(** A worker's move leaves the destructor and the submissions alone. *)
Lemma Step_worker l s s' w :
  Step l s s' → actor l = Some w →
  dtor s' = dtor s ∧ length (heap s') = length (heap s) ∧ enq_of l = None ∧
  ∀ t pt', heap s' !! t = Some pt' → ∃ pt, heap s !! t = Some pt ∧ fn pt' = fn pt.
Proof.
  destruct 1; intros Ha; try done; simpl;
    rewrite ?dtor_run_task, ?heap_run_task;
    repeat split; eauto using run_task_heap.
Qed.

(** A move of the destructor leaves the packaged tasks alone. *)
Lemma Step_destructor l s s' :
  Step l s s' → actor l = None → enq_of l = None → heap s' = heap s.
Proof. destruct 1; intros Ha He; try done. Qed.

Lemma slot_value n tr s t (g : callable Z) r :
  reach n tr s → heap s !! t = Some (PackagedTask g (Some r)) → r = g ().
Proof.
  intros [_ Hd Hp _]%reach_fulfilment Ht.
  destruct (decide (t ∈ finished tr)) as [Hf|Hf].
  - by pose proof (Hd _ _ Ht Hf) as [= ->].
  - by pose proof (Hp _ _ Ht Hf).
Qed.

Lemma main_threads_pos hint : 0 < main_threads hint.
Proof. unfold main_threads. case_bool_decide; lia. Qed.

Lemma main_init_inv hint : main_inv (main_init hint).
Proof. split; [by intros t pt ?|]. simpl. repeat split. lia. Qed.

(** A worker's move under [main]. *)
Lemma pstep_worker l p p' :
  pstep (PWorker l) p = Some p' →
  ∃ w, actor l = Some w ∧ Step l (pool (npool p)) (pool (npool p')) ∧
       nstep (NPool l) (npool p) = Some (npool p') ∧
       pending (npool p') = pending (npool p) ∧
       mpc p' = mpc p ∧ results p' = results p ∧ out p' = out p.
Proof.
  unfold pstep. destruct (actor l) as [w|] eqn:Ha; [|done].
  destruct (nstep (NPool l) (npool p)) as [ns'|] eqn:Hn; [|done].
  intros [= <-]. exists w. cbn [npool mpc results out]. split; [done|].
  pose proof Hn as Hn0.
  apply nstep_inv in Hn as [(l' & [= <-] & Hs & Hp)|[(? & ? & _)|(? & _)]];
    [|done..].
  destruct (Step_worker _ _ _ _ Hs Ha) as (_ & _ & He & _).
  rewrite He in Hp. by repeat split.
Qed.

Lemma main_inv_worker l p p' :
  pstep (PWorker l) p = Some p' → main_inv p → main_inv p'.
Proof.
  intros (w & Ha & Hs & _ & Hp & Hm & Hr & Ho)%pstep_worker [Hfn Hpc].
  destruct (Step_worker _ _ _ _ Hs Ha) as (Hd & Hl & _ & Hh).
  split.
  - intros t pt' (pt & Ht & ->)%Hh. eauto.
  - rewrite Hm. destruct (mpc p); simpl in *;
      rewrite ?Hd, ?Hl, ?Hp, ?Hr, ?Ho; done.
Qed.

Lemma main_inv_main hint ptr w p p' :
  preach hint ptr p → (∃ ntr, nreach (main_threads hint) ntr (npool p)) →
  pstep (PMain w) p = Some p' → main_inv p → main_inv p'.
Proof.
  intros _ [ntr Hn] Hstep [Hfn Hpc].
  pose proof (nreach_reach _ _ _ Hn) as Hr.
  destruct (reach_stop _ _ _ Hr) as [_ Hstop].
  unfold pstep in Hstep. destruct (mpc p) as [i|i|i| | |e] eqn:Hm; try done.
  - destruct Hpc as (Hi & Hlen & Hres & Hpe & Hd & Ho).
    rewrite enqueue_running in Hstep by by apply Hstop.
    injection Hstep as <-. split; simpl.
    + intros t pt [[_ Ht]|[-> <-]]%lookup_snoc_Some; [eauto|].
      by rewrite Hlen.
    + rewrite length_app, Hlen, Hres, handles_snoc. simpl.
      repeat split; try done; lia.
  - destruct Hpc as (Hi & Hlen & Hres & Hpe & Hd & Ho).
    destruct (nstep (NNotify w) (npool p)) as [ns'|] eqn:Hstep'; [|done].
    injection Hstep as <-.
    assert (heap (pool ns') = heap (pool (npool p)) ∧
            dtor (pool ns') = dtor (pool (npool p)) ∧ pending ns' = 0)
      as (Hh & Hd' & Hp').
    { apply nstep_inv in Hstep'
        as [(? & ? & _)|[(w' & _ & Hs & Hp)|(_ & -> & Hp & _)]]; [done| |].
      - inversion Hs; subst. simpl. split; [done|]. split; [done|lia].
      - split; [done|]. split; [done|lia]. }
    split; [simpl; by rewrite Hh|]. simpl; rewrite ?Hh, ?Hd', ?Hp'.
    unfold after_submit. case_bool_decide; simpl; rewrite ?Hh, ?Hd', ?Hp'.
    + done.
    + assert (i = 7) as -> by lia. repeat split; try done; lia.
  - destruct Hpc as (Hi & Hlen & Hres & Hpe & Hd & Ho).
    rewrite Hres, (handles_lookup _ _ Hi) in Hstep.
    unfold get in Hstep; simpl in Hstep.
    destruct (lookup_lt_is_Some_2 (heap (pool (npool p))) i) as [[g o] Ht];
      [lia|].
    rewrite Ht in Hstep. destruct o as [r|]; [|done].
    pose proof (slot_value _ _ _ _ _ _ Hr Ht) as ->.
    pose proof (Hfn _ _ Ht) as Hg. simpl in Hg. subst g.
    unfold main_task, square in Hstep.
    injection Hstep as <-. split; simpl; [exact Hfn|].
    rewrite handles_length by lia. unfold after_get.
    rewrite Ho, handles_read, squares_snoc by done.
    case_bool_decide; simpl; [done|].
    assert (i = 7) as -> by lia. split; [done|]. split; [by rewrite Hd|done].
  - destruct Hpc as (Hpe & Hd & Ho).
    assert (∀ l ns', nstep (NPool l) (npool p) = Some ns' →
              actor l = None → enq_of l = None →
              heap (pool ns') = heap (pool (npool p)) ∧
              pending ns' = pending (npool p) ∧
              Step l (pool (npool p)) (pool ns')) as Hdt.
    { intros l ns' [(l' & [= <-] & Hs & Hp)|[(? & ? & _)|(? & _)]]%nstep_inv
             Ha He; [|done..].
      rewrite He in Hp. split; [by eapply Step_destructor|done]. }
    destruct (dtor (pool (npool p))) as [| |j|] eqn:Hdp; [| | |done].
    + destruct (nstep (NPool LStop) (npool p)) as [ns'|] eqn:Hs; [|done].
      injection Hstep as <-.
      destruct (Hdt _ _ Hs eq_refl eq_refl) as (Hh & Hp & HS).
      split; [simpl; by rewrite Hh|]. simpl; rewrite ?Hh, ?Hp.
      split; [done|]. split; [|done]. by inversion HS.
    + destruct (nstep (NPool LNotifyAll) (npool p)) as [ns'|] eqn:Hs; [|done].
      injection Hstep as <-.
      destruct (Hdt _ _ Hs eq_refl eq_refl) as (Hh & Hp & HS).
      split; [simpl; by rewrite Hh|]. simpl; rewrite ?Hh, ?Hp.
      split; [done|]. split; [|done]. by inversion HS.
    + case_bool_decide.
      * destruct (nstep (NPool LReturn) (npool p)) as [ns'|] eqn:Hs; [|done].
        injection Hstep as <-.
        destruct (Hdt _ _ Hs eq_refl eq_refl) as (Hh & Hp & HS).
        split; [simpl; by rewrite Hh|]. simpl; rewrite ?Hh, ?Hp.
        split; [done|]. split; [|done]. by inversion HS.
      * destruct (nstep (NPool (LJoin j)) (npool p)) as [ns'|] eqn:Hs; [|done].
        injection Hstep as <-.
        destruct (Hdt _ _ Hs eq_refl eq_refl) as (Hh & Hp & HS).
        split; [simpl; by rewrite Hh|]. simpl; rewrite ?Hh, ?Hp.
        split; [done|]. split; [|done]. by inversion HS.
Qed.

(** What the pool does under [main] is an execution of the pool. *)
Lemma pstep_nexec pl p p' :
  pstep pl p = Some p' →
  ∃ ntr, nexec ntr (npool p) = Some (npool p').
Proof.
  destruct pl as [w|l].
  - unfold pstep. destruct (mpc p) as [i|i|i| | |e]; try done.
    + destruct (stop (pool (npool p))) eqn:Hs.
      * rewrite enqueue_stopped by done. intros [= <-].
        exists []. simpl. by destruct (npool p).
      * rewrite enqueue_running by done. intros [= <-].
        exists [NPool (LEnqueue (main_task i) (length (heap (pool (npool p)))))].
        cbn [nexec nstep].
        by rewrite (Step_step _ _ _ (S_enqueue (main_task i) _ Hs)).
    + destruct (nstep (NNotify w) (npool p)) as [ns'|] eqn:Hs; [|done].
      intros [= <-]. exists [NNotify w]. cbn [nexec]. by rewrite Hs.
    + destruct (results p !! i) as [fut|]; [|done].
      destruct (get fut (pool (npool p))) as [[v|e] fut'| |]; try done;
        intros [= <-]; by exists [].
    + destruct (dtor (pool (npool p))); try done; try case_bool_decide;
        match goal with
        | |- context [nstep ?nl ?ns] =>
            destruct (nstep nl ns) as [ns'|] eqn:Hs; [|done];
            intros [= <-]; exists [nl]; cbn [nexec]; by rewrite Hs
        end.
  - intros (w & _ & _ & Hn & _)%pstep_worker.
    exists [NPool l]. cbn [nexec]. by rewrite Hn.
Qed.

Lemma preach_inv hint ptr p :
  preach hint ptr p →
  main_inv p ∧ ∃ ntr, nreach (main_threads hint) ntr (npool p).
Proof.
  revert ptr p. apply preach_ind.
  { split; [apply main_init_inv|]. by exists []. }
  intros ptr p pl p' Hr [Hinv [ntr Hn]] Hstep. split.
  - destruct pl as [w|l].
    + eapply main_inv_main; eauto.
    + by eapply main_inv_worker.
  - destruct (pstep_nexec _ _ _ Hstep) as [ntr' Hn'].
    exists (ntr ++ ntr'). unfold nreach in *. by rewrite nexec_app, Hn.
Qed.

(** A forced move of the pool, when no [notify_one] is to come, is a
    worker's or the destructor's. *)
Lemma forced_cases (nl : nlabel Z) ns ns' :
  nstep nl ns = Some ns' → forced nl = true → pending ns = 0 →
  ∃ l, nl = NPool l ∧ Step l (pool ns) (pool ns') ∧
       ((∃ w, actor l = Some w ∧ pforced (PWorker l) = true) ∨
        l = LNotifyAll ∨ (∃ i, l = LJoin i) ∨ l = LReturn).
Proof.
  intros Hstep Hf Hp.
  apply nstep_inv in Hstep
    as [(l & -> & Hs & _)|[(w & -> & _ & Hp')|(-> & _ & Hp' & _)]];
    [|lia..].
  exists l. split; [done|]. split; [done|].
  destruct l; simpl in *; try done; eauto.
Qed.

Lemma pstep_progress hint ptr p :
  preach hint ptr p → mpc p ≠ MDone →
  ∃ pl p', pstep pl p = Some p' ∧ pforced pl = true.
Proof.
  intros Hpr Hnd.
  destruct (preach_inv _ _ _ Hpr) as [[Hfn Hpc] [ntr Hn]].
  pose proof (nreach_reach _ _ _ Hn) as Hr.
  pose proof (main_threads_pos hint) as Hpos.
  destruct (reach_stop _ _ _ Hr) as [_ Hstop].
  assert (∀ nl ns', nstep nl (npool p) = Some ns' → forced nl = true →
            pending (npool p) = 0 →
            (∀ l, nl = NPool l → actor l = None →
                  ∃ p', pstep (PMain None) p = Some p') →
            ∃ pl p', pstep pl p = Some p' ∧ pforced pl = true) as Hmove.
  { intros nl ns' Hst Hf Hp Hdt.
    destruct (forced_cases _ _ _ Hst Hf Hp)
      as (l & -> & Hs & [(w & Ha & Hpf)|Hl]).
    - exists (PWorker l). eexists. split; [|done].
      unfold pstep. by rewrite Ha, Hst.
    - destruct (Hdt l eq_refl) as [p' Hp'].
      { by destruct Hl as [->|[[i ->]| ->]]. }
      by exists (PMain None), p'. }
  destruct (mpc p) as [i|i|i| | |e] eqn:Hm; try done.
  - exists (PMain None). unfold pstep. rewrite Hm.
    destruct (enqueue (main_task i) (pool (npool p))) as [[fut|e] s'];
      eexists; split; done.
  - destruct Hpc as (Hi & Hlen & Hres & Hpe & Hd & Ho).
    destruct (nobody_waits (pool (npool p))) eqn:Hw.
    + exists (PMain None). eexists. split; [|done].
      unfold pstep, nstep. by rewrite Hm, Hpe, Hw.
    + destruct (somebody_waits _ Hw) as (w & j & Hwj).
      exists (PMain (Some w)). eexists. split; [|done].
      unfold pstep, nstep.
      by rewrite Hm, Hpe, (Step_step _ _ _ (S_wake _ _ _ Hwj)).
  - destruct Hpc as (Hi & Hlen & Hres & Hpe & Hd & Ho).
    destruct (lookup_lt_is_Some_2 (heap (pool (npool p))) i) as [[g o] Ht];
      [lia|].
    destruct o as [r|].
    + exists (PMain None). unfold pstep.
      rewrite Hm, Hres, (handles_lookup _ _ Hi). unfold get; simpl.
      rewrite Ht. destruct r; eexists; split; done.
    + pose proof (reach_fulfilment _ _ _ Hr) as [_ Hdone _ _].
      pose proof (accounted_perm _ _ (reach_accounted _ _ _ Hr)) as Hperm.
      assert (i ∈ seq 0 (length (heap (pool (npool p))))) as Hin
        by (apply elem_of_seq; lia).
      rewrite <-Hperm, !elem_of_app in Hin.
      destruct (forced_step _ _ _ Hn Hpos) as (nl & ns' & Hst & Hf).
      { destruct Hin as [Hin|[Hin|[Hin|Hin]]].
        - by pose proof (Hdone _ _ Ht Hin).
        - right; right; left. intros Hnil. rewrite Hnil in Hin.
          by apply elem_of_nil in Hin.
        - right; left. intros Hnil. rewrite Hnil in Hin.
          by apply elem_of_nil in Hin.
        - left. intros Hnil. rewrite Hnil in Hin.
          by apply elem_of_nil in Hin. }
      apply (Hmove _ _ Hst Hf Hpe). intros l -> Ha.
      destruct (forced_cases _ _ _ Hst Hf Hpe) as (l' & [= <-] & Hs & _).
      inversion Hs; subst; simpl in *; congruence.
  - destruct Hpc as (Hpe & Hd & Ho).
    destruct (dtor (pool (npool p))) as [| |j|] eqn:Hdp; [| | |done].
    + exists (PMain None). eexists. split; [|done].
      unfold pstep, nstep. rewrite Hm, Hdp.
      by rewrite (Step_step _ _ _ (S_stop _ Hdp)).
    + exists (PMain None). eexists. split; [|done].
      unfold pstep, nstep. rewrite Hm, Hdp.
      by rewrite (Step_step _ _ _ (S_notify_all _ Hdp)).
    + assert (stop (pool (npool p)) = true) as Hs.
      { destruct (stop (pool (npool p))); [done|].
        destruct Hstop as [Hstop _]. by specialize (Hstop eq_refl). }
      destruct (forced_step _ _ _ Hn Hpos) as (nl & ns' & Hst & Hf).
      { do 4 right. split; [done|]. by rewrite Hdp. }
      apply (Hmove _ _ Hst Hf Hpe). intros l -> Ha.
      destruct (forced_cases _ _ _ Hst Hf Hpe) as (l' & [= <-] & HS & _).
      unfold pstep. rewrite Hm, Hdp.
      inversion HS; subst; simpl in *; try congruence;
        match goal with
        | H : dtor _ = DJoin _ |- _ => rewrite Hdp in H; injection H as ->
        end.
      * rewrite bool_decide_eq_false_2, Hst; [by eexists|].
        match goal with
        | H : workers _ !! _ = Some _ |- _ => apply lookup_lt_Some in H
        end. lia.
      * rewrite bool_decide_eq_false_2, Hst; [by eexists|].
        match goal with
        | H : workers _ !! _ = Some _ |- _ => apply lookup_lt_Some in H
        end. lia.
      * rewrite bool_decide_eq_true_2, Hst by done. by eexists.
Qed.

Lemma LStop_nmeasure s q :
  dtor s = DNone →
  nmeasure (NState (set_dtor DNotify (set_stop true s)) q)
  < nmeasure (NState s q).
Proof. intros Hd. unfold nmeasure; simpl. rewrite Hd. simpl. lia. Qed.

Lemma pstep_pmeasure pl p p' :
  pstep pl p = Some p' → pforced pl = true → main_inv p →
  pmeasure p' < pmeasure p.
Proof.
  intros Hstep Hf [_ Hpc]. unfold pmeasure. destruct pl as [w|l].
  - unfold pstep in Hstep. destruct (mpc p) as [i|i|i| | |e] eqn:Hm; try done.
    + destruct Hpc as (Hi & _).
      destruct (stop (pool (npool p))) eqn:Hs.
      * rewrite enqueue_stopped in Hstep by done. injection Hstep as <-.
        destruct (npool p) as [s q]. simpl. lia.
      * rewrite enqueue_running in Hstep by done. injection Hstep as <-.
        destruct (npool p) as [s q]. unfold nmeasure; simpl.
        rewrite length_app. simpl. lia.
    + destruct Hpc as (Hi & _).
      destruct (nstep (NNotify w) (npool p)) as [ns'|] eqn:Hn; [|done].
      injection Hstep as <-. simpl.
      pose proof (nstep_nmeasure _ _ _ Hn eq_refl).
      unfold after_submit. case_bool_decide; simpl; lia.
    + destruct Hpc as (Hi & _ & Hres & _).
      destruct (results p !! i) as [fut|]; [|done].
      destruct (get fut (pool (npool p))) as [[v|e] fut'| |]; try done;
        injection Hstep as <-; simpl; [|lia].
      rewrite Hres, handles_length by lia.
      unfold after_get. case_bool_decide; simpl; lia.
    + destruct (dtor (pool (npool p))) as [| |j|] eqn:Hd; [| | |done];
        try case_bool_decide;
        match type of Hstep with
        | context [nstep ?nl ?ns] =>
            destruct (nstep nl ns) as [ns'|] eqn:Hn; [|done];
            injection Hstep as <-; simpl
        end;
        try (pose proof (nstep_nmeasure _ _ _ Hn eq_refl); lia).
      apply nstep_inv in Hn as [(l & [= <-] & Hs & Hp)|[(? & ? & _)|(? & _)]];
        [|done..].
      inversion Hs; subst. destruct (npool p) as [s q], ns' as [s' q'].
      simpl in *. subst.
      pose proof (LStop_nmeasure s q Hd). lia.
  - apply pstep_worker in Hstep as (w & Ha & _ & Hn & _ & Hm & _).
    rewrite Hm.
    assert (forced (NPool l) = true) as Hfl by by destruct l.
    pose proof (nstep_nmeasure _ _ _ Hn Hfl). lia.
Qed.

(** Whatever the number of hardware threads and however the threads are
    scheduled, [main] prints squares: what it has printed so far is
    0, 1, 4, ... up to some point, no exception ever leaves it, and when
    it has returned it has printed the eight squares in order, every
    worker has returned and been joined, and the queue is empty. *)
Theorem main_prints_squares hint ptr p :
  preach hint ptr p →
  (∀ e, mpc p ≠ MAbort e) ∧
  (∃ k, k ≤ 8 ∧ out p = squares k) ∧
  (mpc p = MDone →
     out p = [0; 1; 4; 9; 16; 25; 36; 49]%Z ∧
     (∀ w th, workers (pool (npool p)) !! w = Some th →
        th = Thread Exited false) ∧
     tasks (pool (npool p)) = []).
Proof.
  intros Hpr. destruct (preach_inv _ _ _ Hpr) as [[Hfn Hpc] [ntr Hn]].
  pose proof (nreach_reach _ _ _ Hn) as Hr.
  split; [|split].
  - intros e He. by rewrite He in Hpc.
  - destruct (mpc p) as [i|i|i| | |e]; try done.
    + exists 0. split; [lia|]. by destruct Hpc as (_ & _ & _ & _ & _ & ->).
    + exists 0. split; [lia|]. by destruct Hpc as (_ & _ & _ & _ & _ & ->).
    + exists i. destruct Hpc as (? & _ & _ & _ & _ & ->). split; [lia|done].
    + exists 8. by destruct Hpc as (_ & _ & ->).
    + exists 8. by destruct Hpc as (_ & _ & ->).
  - intros Hm. rewrite Hm in Hpc. destruct Hpc as (_ & Hd & ->).
    split; [done|].
    pose proof (reach_done _ _ _ Hr Hd) as Hall. split; [done|].
    destruct (lookup_lt_is_Some_2 (workers (pool (npool p))) 0) as [th Hth].
    { rewrite (reach_workers _ _ _ Hr). apply main_threads_pos. }
    pose proof (Hall _ _ Hth) as ->.
    by destruct (reach_exited _ _ _ Hr _ _ Hth eq_refl).
Qed.

(** [main] cannot get stuck: until it has returned, [main] or a worker
    can make a move, and not merely by a spurious wake-up.  In
    particular [main] never waits for a result that no worker will
    produce, nor in [join] for a worker that will not return. *)
Theorem main_never_stuck hint ptr p :
  preach hint ptr p → mpc p ≠ MDone →
  ∃ pl p', pstep pl p = Some p' ∧ pforced pl = true.
Proof. apply pstep_progress. Qed.

Lemma pexec_pmeasure hint ptr' : ∀ ptr p p',
  preach hint ptr p → pexec ptr' p = Some p' → forallb pforced ptr' = true →
  length ptr' + pmeasure p' ≤ pmeasure p.
Proof.
  induction ptr' as [|pl ptr' IH]; intros ptr p p' Hpr He Hf; simpl in *.
  - injection He as <-. lia.
  - apply andb_true_iff in Hf as [Hl Hf].
    destruct (pstep pl p) as [p1|] eqn:Hstep; [|done].
    destruct (preach_inv _ _ _ Hpr) as [Hinv _].
    pose proof (pstep_pmeasure _ _ _ Hstep Hl Hinv).
    assert (preach hint (ptr ++ [pl]) p1) as Hpr1 by (apply pexec_snoc; eauto).
    specialize (IH _ _ _ Hpr1 He Hf). lia.
Qed.

(** [main] comes to an end: without spurious wake-ups the program makes
    at most [4 * n + 60] moves, [n] being the number of workers, however
    the threads are scheduled. *)
Theorem main_terminates hint ptr ptr' p p' :
  preach hint ptr p → pexec ptr' p = Some p' → forallb pforced ptr' = true →
  length ptr' + pmeasure p' ≤ pmeasure p ∧
  pmeasure (main_init hint) = 4 * main_threads hint + 60.
Proof.
  intros Hpr He Hf. split; [by eapply pexec_pmeasure|].
  unfold pmeasure, nmeasure; simpl. rewrite length_replicate.
  assert (∀ k, sum_list_with (λ th, nweight (pc th))
                 (replicate k (Thread Ready true)) = 2 * k) as ->.
  { induction k as [|k IH]; simpl; [done|]. rewrite IH. lia. }
  lia.
Qed.

(** From wherever the program is, it can be run to the end of [main]
    without any spurious wake-up, and then the eight squares have been
    printed. *)
Theorem main_completes hint ptr p :
  preach hint ptr p →
  ∃ ptr' p', pexec ptr' p = Some p' ∧ forallb pforced ptr' = true ∧
    mpc p' = MDone ∧ out p' = [0; 1; 4; 9; 16; 25; 36; 49]%Z.
Proof.
  remember (pmeasure p) as k eqn:Hk.
  revert ptr p Hk. induction (lt_wf k) as [k _ IH]. intros ptr p -> Hpr.
  destruct (preach_inv _ _ _ Hpr) as [Hinv _].
  assert (mpc p = MDone ∨ mpc p ≠ MDone) as [Hm|Hm]
    by (destruct (mpc p); auto).
  - exists [], p. split; [done|]. split; [done|]. split; [done|].
    destruct Hinv as [_ Hpc]. rewrite Hm in Hpc.
    by destruct Hpc as (_ & _ & ->).
  - destruct (pstep_progress _ _ _ Hpr Hm) as (pl & p1 & Hstep & Hf).
    pose proof (pstep_pmeasure _ _ _ Hstep Hf Hinv) as Hlt.
    assert (preach hint (ptr ++ [pl]) p1) as Hpr1 by (apply pexec_snoc; eauto).
    destruct (IH _ Hlt _ _ eq_refl Hpr1) as (ptr' & p' & He & Hfs & Hd & Ho).
    exists (pl :: ptr'), p'. simpl. by rewrite Hstep, Hf.
Qed.

End Main.

(** ** The properties above on concrete executions *)

Lemma futures_paired_witness :
  ∃ s, reach 1 run_three_tasks s ∧
    length (heap s) = 3 ∧
    (∃ o, heap s !! 1 = Some (PackagedTask (failing "boom") o)).
Proof.
  eexists.
  match goal with
  | |- ?R ∧ _ => assert R as Hr by (vm_compute; reflexivity)
  end.
  split; [exact Hr|].
  destruct (futures_paired 1 run_three_tasks _ Hr) as (_ & Hl & Hb & _).
  split; [exact Hl|]. apply Hb. right. by left.
Defined.

Lemma tasks_conserved_witness :
  ∃ s, reach 2 run_two_hands s ∧
    finished run_two_hands ++ running s ++ claimed s ++ tasks s
    ≡ₚ enqueued run_two_hands.
Proof.
  eexists.
  match goal with
  | |- ?R ∧ _ => assert R as Hr by (vm_compute; reflexivity)
  end.
  split; [exact Hr|]. by apply (tasks_conserved 2 run_two_hands).
Defined.

Lemma get_blocks_until_finished_witness :
  (∃ s, reach 2 run_early_exit s ∧ get (Future (Some 0)) s = Blocks) ∧
  (∃ s, reach 0 run_no_worker s ∧
     get (Future (Some 0)) (destroy_members s)
     = Got (Threw (future_error broken_promise)) (Future None)).
Proof.
  split.
  - eexists.
    match goal with
    | |- ?R ∧ _ => assert R as Hr by (vm_compute; reflexivity)
    end.
    split; [exact Hr|].
    destruct (get_blocks_until_finished 2 run_early_exit _ (square 3) 0 Hr)
      as (_ & Hb & _); [by left|].
    apply Hb; [vm_compute; by intros ?%elem_of_nil|done].
  - eexists.
    match goal with
    | |- ?R ∧ _ => assert R as Hr by (vm_compute; reflexivity)
    end.
    split; [exact Hr|].
    destruct (get_blocks_until_finished 0 run_no_worker _ (square 3) 0 Hr)
      as (_ & Hb & _); [by left|].
    apply Hb; [vm_compute; by intros ?%elem_of_nil|done].
Defined.

Lemma parallelism_bounded_witness :
  ∃ s, reach 2 run_two_hands s ∧
    (∃ w, at_pc w s = Some (Running 0)) ∧
    length (started run_two_hands) ≤ length (finished run_two_hands) + 2.
Proof.
  eexists.
  match goal with
  | |- ?R ∧ _ => assert R as Hr by (vm_compute; reflexivity)
  end.
  split; [exact Hr|].
  destruct (parallelism_bounded 2 run_two_hands _ Hr) as (_ & Hrun & _ & Hb & _).
  split; [|exact Hb]. apply Hrun.
  split; vm_compute; [by left|by intros ?%elem_of_nil].
Defined.

Lemma single_worker_sequential_witness :
  ∃ s, reach 1 run_in_order s ∧
    started run_in_order = finished run_in_order ++ running s.
Proof.
  eexists.
  match goal with
  | |- ?R ∧ _ => assert R as Hr by (vm_compute; reflexivity)
  end.
  split; [exact Hr|]. by apply (single_worker_sequential run_in_order).
Defined.

Lemma worker_exits_for_good_witness :
  ∃ s, reach 2 run_early_exit s ∧ at_pc 1 s = Some Exited ∧ stop s = true.
Proof.
  eexists.
  match goal with
  | |- ?R ∧ _ => assert R as Hr by (vm_compute; reflexivity)
  end.
  split; [exact Hr|].
  destruct (worker_exits_for_good 2 run_early_exit _ 1 Hr) as (Hw & Hs & _).
  - do 3 right. by left.
  - by split.
Defined.

Lemma notifications_refine_witness :
  ∃ ns, nreach 1 run_notified ns ∧
    reach 1 (erase run_notified) (pool ns) ∧
    pending ns + 1 = length (enqueued (erase run_notified)).
Proof.
  eexists.
  match goal with
  | |- ?R ∧ _ => assert R as Hr by (vm_compute; reflexivity)
  end.
  split; [exact Hr|].
  by destruct (proj1 (notifications_refine 1) run_notified _ Hr).
Defined.

Lemma wakeup_not_lost_witness :
  ∃ ns, nreach 1 run_notified ns ∧
    (0 < pending ns ∨ ∃ w p, at_pc w (pool ns) = Some p ∧ active p = true).
Proof.
  eexists.
  match goal with
  | |- ?R ∧ _ => assert R as Hr by (vm_compute; reflexivity)
  end.
  split; [exact Hr|].
  apply (wakeup_not_lost 1 run_notified _ Hr); [lia|done].
Defined.

Lemma pool_never_stuck_witness :
  ∃ ns, nreach 1 run_notified ns ∧
    ((∃ w t, at_pc w (pool ns) = Some (Running t)) ∨
     ∃ nl ns', nstep nl ns = Some ns' ∧ forced nl = true ∧
               ∀ w t, nl ≠ NPool (LFinish w t)).
Proof.
  eexists.
  match goal with
  | |- ?R ∧ _ => assert R as Hr by (vm_compute; reflexivity)
  end.
  split; [exact Hr|].
  apply (pool_never_stuck 1 run_notified _ Hr); [lia|]. by left.
Defined.

Lemma pool_settles_witness :
  ∃ ns ns', nreach 1 run_queued ns ∧
    nexec run_served ns = Some ns' ∧
    4 + nmeasure ns' ≤ nmeasure ns.
Proof.
  eexists _, _.
  match goal with
  | |- ?R ∧ ?S ∧ _ =>
      assert R as Hr by (vm_compute; reflexivity);
      assert S as Hs by (vm_compute; reflexivity)
  end.
  split; [exact Hr|]. split; [exact Hs|].
  by apply (pool_settles run_served _ _ Hs).
Defined.

Lemma main_prints_squares_witness :
  ∃ p, preach 1 run_main p ∧ mpc p = MDone ∧
    out p = [0; 1; 4; 9; 16; 25; 36; 49]%Z.
Proof.
  eexists.
  match goal with
  | |- ?R ∧ _ => assert R as Hr by (vm_compute; reflexivity)
  end.
  split; [exact Hr|]. split; [reflexivity|].
  by apply (main_prints_squares 1 run_main _ Hr).
Defined.

Lemma main_never_stuck_witness :
  (∃ p, preach 1 run_submitted p ∧
     mpc p = MGet 0 ∧ (∀ w, pstep (PMain w) p = None) ∧
     ∃ pl p', pstep pl p = Some p' ∧ pforced pl = true) ∧
  (∃ p, preach 1 run_joining p ∧
     mpc p = MDestroy ∧ dtor (pool (npool p)) = DJoin 0 ∧
     (∀ w, pstep (PMain w) p = None) ∧
     ∃ pl p', pstep pl p = Some p' ∧ pforced pl = true).
Proof.
  split.
  - eexists.
    match goal with
    | |- ?R ∧ _ => assert R as Hr by (vm_compute; reflexivity)
    end.
    split; [exact Hr|]. split; [reflexivity|]. split; [by intros w|].
    by apply (main_never_stuck 1 run_submitted _ Hr).
  - eexists.
    match goal with
    | |- ?R ∧ _ => assert R as Hr by (vm_compute; reflexivity)
    end.
    split; [exact Hr|]. split; [reflexivity|]. split; [reflexivity|].
    split; [by intros w|].
    by apply (main_never_stuck 1 run_joining _ Hr).
Defined.

Lemma main_terminates_witness :
  ∃ p', pexec run_main (main_init 1) = Some p' ∧
    length run_main + pmeasure p' ≤ pmeasure (main_init 1).
Proof.
  eexists.
  match goal with
  | |- ?R ∧ _ => assert R as Hr by (vm_compute; reflexivity)
  end.
  split; [exact Hr|].
  by apply (main_terminates 1 [] run_main (main_init 1) _ eq_refl Hr).
Defined.

Lemma main_completes_witness :
  ∃ ptr' p', pexec ptr' (main_init 0) = Some p' ∧
    forallb pforced ptr' = true ∧ mpc p' = MDone ∧
    out p' = [0; 1; 4; 9; 16; 25; 36; 49]%Z.
Proof. by apply (main_completes 0 [] (main_init 0)). Defined.
